(** * Resilient DAG execution engine: a shallow embedding

    Sources embedded here:
    - [examples/plan-and-execute/dag_executor.py]  (module [Dag])
    - [examples/error-recovery/error_recovery.py]  (module [Recovery])

    Conventions.
    - A Python callable is a transformer of an abstract world [W] (whatever
      Python state the callable can read and write) that either returns a
      value or raises an exception: [W -> Outcome A * W].
    - [float] values are exact rationals ([Q]): rounding is left aside, the
      OverflowError of a power that leaves the range of a double is kept.
    - [DAGStep] objects, which the source mutates in place and hands around,
      live in a store and are passed by reference; a [CircuitBreaker] is
      threaded through the calls and written back to its executor.
    - [async]/[await] are sequentialised: awaiting a coroutine runs it to
      completion; a coroutine object that is never awaited runs nothing. *)

From Stdlib Require Import ZArith QArith Qpower Qminmax Qabs Lqa Lia.
From stdpp Require Import base option list gmap strings pretty sorting.

Open Scope string_scope.
Open Scope list_scope.

(** ** Python exceptions and call outcomes *)

Module Py.

(** The exception classes of [error_recovery.py] plus the two other
    subclasses of [Exception] that the code can meet: the timeout raised by
    [asyncio.wait_for] and any other [Exception]. *)
Inductive Exn :=
| TransientError (msg : string)
| RecoverableError (msg suggestion : string)
| PermanentError (msg : string)
| CatastrophicError (msg : string)
| TimeoutError
| OtherException (msg : string).
(* [BaseException]s outside [Exception] (KeyboardInterrupt, SystemExit) are
   process-level signals; no handler of the sources names them and they are
   not modelled. *)

(** [str(e)] *)
Definition str (e : Exn) : string :=
  match e with
  | TransientError m | RecoverableError m _ | PermanentError m
  | CatastrophicError m | OtherException m => m
  | TimeoutError => ""
  end.

Definition is_transient (e : Exn) : bool :=
  match e with TransientError _ => true | _ => false end.

Definition is_catastrophic (e : Exn) : bool :=
  match e with CatastrophicError _ => true | _ => false end.

Inductive Outcome (A : Type) :=
| Returns (a : A)
| Raises (e : Exn).
Arguments Returns {A} a.
Arguments Raises {A} e.

Definition raised {A} (o : Outcome A) : bool :=
  match o with Raises _ => true | Returns _ => false end.

End Py.
Import Py.

(** ** dag_executor.py *)

Module Dag.

Inductive StepStatus := PENDING | READY | RUNNING | COMPLETED | FAILED | SKIPPED.

#[global] Instance StepStatus_eq_dec : EqDecision StepStatus.
Proof. solve_decision. Defined.

Section Executor.

(** The world the step actions act on, the keyword arguments handed to an
    action, the wall clock [time.time()] (reading it lets time pass) and
    [asyncio.sleep]. *)
Variable W : Type.
Variable Params : Type.
Variable time : W -> Q * W.
Variable sleep : Q -> W -> W.

(** [@dataclass class DAGStep] *)
Record DAGStep := mkStep {
  id : string;
  name : string;
  action : Params -> W -> Outcome string * W;
  params : Params;
  depends_on : list string;
  status : StepStatus;
  result : string;
  error : option string
}.

(** [step.status = s], [step.error = e], [step.result = r] *)
Definition set_status (s : StepStatus) (st : DAGStep) : DAGStep :=
  mkStep (id st) (name st) (action st) (params st) (depends_on st) s (result st) (error st).
Definition set_error (e : option string) (st : DAGStep) : DAGStep :=
  mkStep (id st) (name st) (action st) (params st) (depends_on st) (status st) (result st) e.
Definition set_result (r : string) (st : DAGStep) : DAGStep :=
  mkStep (id st) (name st) (action st) (params st) (depends_on st) (status st) r (error st).

(** [@dataclass class DAGExecutionResult]; [steps] holds references into the
    store of step objects. *)
Record DAGExecutionResult := mkResult {
  steps : list nat;
  total_time : Q;
  parallel_speedup : Q
}.

(** Number of steps of a list of references whose status is [s]. *)
Definition count_status (s : StepStatus) (refs : list nat) (h : list DAGStep) : nat :=
  length (filter (fun r => status <$> h !! r = Some s) refs).

(** [DAGExecutionResult.success_count], [failed_count] *)
Definition success_count (res : DAGExecutionResult) (h : list DAGStep) : nat :=
  count_status COMPLETED (steps res) h.
Definition failed_count (res : DAGExecutionResult) (h : list DAGStep) : nat :=
  count_status FAILED (steps res) h.

(** [DAGExecutor.build_dependency_graph]: later entries overwrite earlier
    ones with the same id; nothing is checked. *)
Fixpoint build_graph_loop (sts : list DAGStep) (graph : gmap string (gset string))
  : gmap string (gset string) :=
  match sts with
  | [] => graph
  | st :: rest => build_graph_loop rest (<[id st := list_to_set (depends_on st)]> graph)
  end.

Definition build_dependency_graph (sts : list DAGStep) : gmap string (gset string) :=
  build_graph_loop sts ∅.

(** [any(dep in failed for dep in step.depends_on)] and
    [all(dep in completed for dep in step.depends_on)] *)
Definition any_in (s : gset string) (deps : list string) : bool :=
  existsb (fun dep => bool_decide (dep ∈ s)) deps.
Definition all_in (s : gset string) (deps : list string) : bool :=
  forallb (fun dep => bool_decide (dep ∈ s)) deps.

(** [DAGExecutor.get_ready_steps]: the body of the [for] loop, with the list
    of references still to visit, the store and the [ready] list built so
    far. A reference that is not in the store cannot occur in Python; the
    model skips it. *)
Fixpoint get_ready_loop (refs : list nat) (completed failed : gset string)
    (h : list DAGStep) (ready : list nat) : list DAGStep * list nat :=
  match refs with
  | [] => (h, ready)
  | r :: rest =>
    match h !! r with
    | None => get_ready_loop rest completed failed h ready
    | Some step =>
      if negb (bool_decide (status step = PENDING)) then
        get_ready_loop rest completed failed h ready
      else if any_in failed (depends_on step) then
        get_ready_loop rest completed failed
          (<[r := set_error (Some "Dependency failed") (set_status SKIPPED step)]> h) ready
      else if all_in completed (depends_on step) then
        get_ready_loop rest completed failed
          (<[r := set_status READY step]> h) (ready ++ [r])
      else get_ready_loop rest completed failed h ready
    end
  end.

Definition get_ready_steps (refs : list nat) (completed failed : gset string)
    (h : list DAGStep) : list DAGStep * list nat :=
  get_ready_loop refs completed failed h [].

(** [DAGExecutor.execute_step]: [try] the action, [except Exception] marks
    the step FAILED; the reference it was given is returned. The semaphore
    only limits how many actions run at once and is not modelled. *)
Definition execute_step (r : nat) (h : list DAGStep) (w : W)
  : Outcome nat * list DAGStep * W :=
  match h !! r with
  | None => (Returns r, h, w)
  | Some step =>
    let running := set_status RUNNING step in
    match action step (params step) w with
    | (Returns res, w') =>
        (Returns r, <[r := set_status COMPLETED (set_result res running)]> h, w')
    | (Raises e, w') =>
        (Returns r, <[r := set_status FAILED (set_error (Some (str e)) running)]> h, w')
    end
  end.

(** [await asyncio.gather] over the tasks: the tasks are run one after the
    other, in the order of the ready list, and the results keep that order;
    the first exception of a task is the one [gather] raises. *)
Fixpoint gather (tasks : list nat) (h : list DAGStep) (w : W)
  : Outcome (list nat) * list DAGStep * W :=
  match tasks with
  | [] => (Returns [], h, w)
  | r :: rest =>
    let '(o, h1, w1) := execute_step r h w in
    let '(os, h2, w2) := gather rest h1 w1 in
    match o, os with
    | Returns r', Returns rs => (Returns (r' :: rs), h2, w2)
    | Raises e, _ => (Raises e, h2, w2)
    | Returns _, Raises e => (Raises e, h2, w2)
    end
  end.

(** The loop that records the results into [completed] and [failed]. *)
Fixpoint record_results (results : list nat) (h : list DAGStep)
    (completed failed : gset string) : gset string * gset string :=
  match results with
  | [] => (completed, failed)
  | r :: rest =>
    match h !! r with
    | None => record_results rest h completed failed
    | Some step =>
      if bool_decide (status step = COMPLETED) then
        record_results rest h ({[id step]} ∪ completed) failed
      else if bool_decide (status step = FAILED) then
        record_results rest h completed ({[id step]} ∪ failed)
      else record_results rest h completed failed
    end
  end.

(** The seeding loop at the top of [execute]. *)
Fixpoint seed (refs : list nat) (h : list DAGStep) : list DAGStep :=
  match refs with
  | [] => h
  | r :: rest =>
    match h !! r with
    | None => seed rest h
    | Some step =>
      match depends_on step with
      | [] => seed rest (<[r := set_status READY step]> h)
      | _ :: _ => seed rest h
      end
    end
  end.

(** The list of the steps whose status is RUNNING, as [execute] builds it. *)
Definition running_steps (refs : list nat) (h : list DAGStep) : list nat :=
  filter (fun r => status <$> h !! r = Some RUNNING) refs.

(** The [while True] loop of [execute]; [fuel] bounds the number of
    iterations, [None] means the bound was hit before the loop left. *)
Fixpoint execute_loop (fuel : nat) (refs : list nat) (completed failed : gset string)
    (h : list DAGStep) (w : W) : option (Outcome unit * list DAGStep * W) :=
  match fuel with
  | O => None
  | S fuel' =>
    let '(h1, ready_steps) := get_ready_steps refs completed failed h in
    match ready_steps with
    | [] =>
      match running_steps refs h1 with
      | [] => Some (Returns tt, h1, w)
      | _ :: _ => execute_loop fuel' refs completed failed h1 (sleep (1 # 10) w)
      end
    | _ :: _ =>
      match gather ready_steps h1 w with
      | (Raises e, h2, w2) => Some (Raises e, h2, w2)
      | (Returns results, h2, w2) =>
        let '(completed', failed') := record_results results h2 completed failed in
        execute_loop fuel' refs completed' failed' h2 w2
      end
    end
  end.

(** [DAGExecutor.execute] *)
Definition execute (fuel : nat) (refs : list nat) (h : list DAGStep) (w : W)
  : option (Outcome DAGExecutionResult * list DAGStep * W) :=
  let '(start_time, w0) := time w in
  match execute_loop fuel refs ∅ ∅ (seed refs h) w0 with
  | None => None
  | Some (Raises e, h', w') => Some (Raises e, h', w')
  | Some (Returns _, h', w1) =>
    let '(end_time, w') := time w1 in
    let total_time := (end_time - start_time)%Q in
    let serial_time := inject_Z (Z.of_nat (count_status COMPLETED refs h')) in
    let speedup := if Qlt_le_dec 0 total_time then (serial_time / total_time)%Q else 1%Q in
    Some (Returns (mkResult refs total_time speedup), h', w')
  end.

(** *** Vocabulary for the statements *)

(** What one visit of [get_ready_steps] does to a step object. *)
Definition visit (completed failed : gset string) (st : DAGStep) : DAGStep :=
  if negb (bool_decide (status st = PENDING)) then st
  else if any_in failed (depends_on st) then
    set_error (Some "Dependency failed") (set_status SKIPPED st)
  else if all_in completed (depends_on st) then set_status READY st
  else st.

(** Whether that visit appends the step to the ready list. *)
Definition becomes_ready (completed failed : gset string) (st : DAGStep) : bool :=
  bool_decide (status st = PENDING) && negb (any_in failed (depends_on st))
  && all_in completed (depends_on st).

(** What the seeding loop does to a step object. *)
Definition seed_one (st : DAGStep) : DAGStep :=
  match depends_on st with
  | [] => set_status READY st
  | _ :: _ => st
  end.

(** Updating every referenced object with [f], in the order of the list. *)
Definition alter_all (f : DAGStep -> DAGStep) (refs : list nat) (h : list DAGStep)
  : list DAGStep :=
  foldl (fun h' r => alter f r h') h refs.


(** *** [visualize_dag] *)

(** [max(step_levels.get(dep, 0) for dep in step.depends_on)] for a list of
    dependencies that is not empty, [d] being its first element. *)
Definition max_level (step_levels : gmap string Z) (d : string) (ds : list string) : Z :=
  foldl (fun m dep => Z.max m (default 0%Z (step_levels !! dep)))
        (default 0%Z (step_levels !! d)) ds.

(** The level given to a step by the first loop. *)
Definition level_of (step_levels : gmap string Z) (step : DAGStep) : Z :=
  match depends_on step with
  | [] => 0%Z
  | d :: ds => (max_level step_levels d ds + 1)%Z
  end.

(** The first loop, over the steps still to place, with the dictionaries
    [levels] and [step_levels] built so far. *)
Fixpoint levels_loop (sts : list DAGStep) (levels : gmap Z (list DAGStep))
    (step_levels : gmap string Z) : gmap Z (list DAGStep) * gmap string Z :=
  match sts with
  | [] => (levels, step_levels)
  | step :: rest =>
    let level := level_of step_levels step in
    levels_loop rest
      (<[level := default [] (levels !! level) ++ [step]]> levels)
      (<[id step := level]> step_levels)
  end.

(** [sorted(levels.keys())] *)
Definition sorted_keys (levels : gmap Z (list DAGStep)) : list Z :=
  merge_sort Z.le (map fst (map_to_list levels)).

(** The second loop: for each level in increasing order, the level and its
    [step_names]. *)
Definition level_rows (levels : gmap Z (list DAGStep)) : list (Z * list string) :=
  map (fun level => (level, map id (default [] (levels !! level)))) (sorted_keys levels).

(** The lines printed for one level. *)
Definition print_row (row : Z * list string) : list string :=
  let line := "Level " +:+ pretty (fst row) +:+ ": " +:+ String.concat ", " (snd row) in
  if bool_decide (fst row = 0%Z) then [line] else ["    ↓"; line].

(** [visualize_dag], as the list of the lines it prints. *)
Definition visualize_dag (sts : list DAGStep) : list string :=
  [""; "DAG Structure:"; "----------------------------------------"]
  ++ mjoin (map print_row (level_rows (fst (levels_loop sts ∅ ∅)))).

(** A step list in which ids are not repeated and every dependency is the id
    of an earlier step; [seen] holds the ids met so far. *)
Fixpoint topological (seen : gset string) (sts : list DAGStep) : bool :=
  match sts with
  | [] => true
  | step :: rest =>
    negb (bool_decide (id step ∈ seen)) && all_in seen (depends_on step)
    && topological ({[id step]} ∪ seen) rest
  end.

(** The steps held by [levels], level lists joined. *)
Definition listed (levels : gmap Z (list DAGStep)) : list DAGStep :=
  mjoin (map snd (map_to_list levels)).

(** What [visualize_dag] promises of the level of a step. *)
Definition well_placed (step_levels : gmap string Z) (st : DAGStep) : Prop :=
  exists l, step_levels !! id st = Some l /\
    (depends_on st = [] -> l = 0%Z) /\
    (depends_on st <> [] ->
       exists dep, dep ∈ depends_on st /\ step_levels !! dep = Some (l - 1)%Z) /\
    (forall dep, dep ∈ depends_on st ->
       exists ld, step_levels !! dep = Some ld /\ (0 <= ld < l)%Z).
(** *** Both loops over the step references are pointwise updates *)

Lemma alter_lookup_Some (f : DAGStep -> DAGStep) (h : list DAGStep) r st :
  h !! r = Some st -> alter f r h = <[r := f st]> h.
Proof.
  intros E. apply list_eq. intros j.
  pose proof (lookup_lt_Some _ _ _ E) as Hlt.
  destruct (decide (r = j)) as [<-|Hne].
  - rewrite list_lookup_alter_eq, list_lookup_insert_eq by exact Hlt.
    rewrite E. reflexivity.
  - rewrite list_lookup_alter_ne, list_lookup_insert_ne by exact Hne. reflexivity.
Qed.

Lemma alter_lookup_None (f : DAGStep -> DAGStep) (h : list DAGStep) r :
  h !! r = None -> alter f r h = h.
Proof.
  intros E. apply list_eq. intros j.
  rewrite list_lookup_alter.
  destruct (decide (r = j)) as [->|]; [|reflexivity].
  rewrite E. reflexivity.
Qed.

Lemma alter_fixed (f : DAGStep -> DAGStep) (h : list DAGStep) r :
  (forall st, h !! r = Some st -> f st = st) -> alter f r h = h.
Proof.
  intros Hf. destruct (h !! r) as [st|] eqn:E.
  - rewrite (alter_lookup_Some f h r st E), (Hf st eq_refl).
    apply list_insert_id. exact E.
  - apply alter_lookup_None. exact E.
Qed.

Lemma alter_all_lookup (f : DAGStep -> DAGStep) :
  (forall st, f (f st) = f st) ->
  forall refs h r,
    alter_all f refs h !! r =
    if bool_decide (r ∈ refs) then f <$> h !! r else h !! r.
Proof.
  intros Hidem. induction refs as [|r0 rest IH]; intros h r.
  - case_bool_decide as Hin; [inversion Hin | reflexivity].
  - change (alter_all f (r0 :: rest) h) with (alter_all f rest (alter f r0 h)).
    rewrite IH, list_lookup_alter.
    destruct (decide (r0 = r)) as [->|Hne].
    + rewrite (bool_decide_eq_true_2 (r ∈ r :: rest)) by apply list_elem_of_here.
      case_bool_decide; [|reflexivity].
      destruct (h !! r); simpl; [rewrite Hidem|]; reflexivity.
    + rewrite (bool_decide_ext (r ∈ r0 :: rest) (r ∈ rest)); [reflexivity|].
      rewrite elem_of_cons. split; [|auto].
      intros [H|H]; [exfalso; apply Hne; symmetry; exact H | exact H].
Qed.

Lemma visit_idem completed failed st :
  visit completed failed (visit completed failed st) = visit completed failed st.
Proof.
  unfold visit.
  destruct (bool_decide (status st = PENDING)) eqn:Hp; simpl.
  - destruct (any_in failed (depends_on st)) eqn:Ha; simpl.
    + reflexivity.
    + destruct (all_in completed (depends_on st)) eqn:Hc; simpl.
      * reflexivity.
      * rewrite Hp, Ha, Hc. reflexivity.
  - rewrite Hp. reflexivity.
Qed.

Lemma becomes_ready_visit completed failed st :
  becomes_ready completed failed (visit completed failed st) = false.
Proof.
  unfold becomes_ready, visit.
  destruct (bool_decide (status st = PENDING)) eqn:Hp; simpl.
  - destruct (any_in failed (depends_on st)) eqn:Ha; simpl.
    + reflexivity.
    + destruct (all_in completed (depends_on st)) eqn:Hc; simpl.
      * reflexivity.
      * rewrite Hp, Ha, Hc. reflexivity.
  - rewrite Hp. reflexivity.
Qed.

Lemma seed_one_idem st : seed_one (seed_one st) = seed_one st.
Proof. unfold seed_one. destruct (depends_on st) eqn:E; simpl; rewrite E; reflexivity. Qed.

Lemma get_ready_loop_cons r rest completed failed h ready :
  get_ready_loop (r :: rest) completed failed h ready =
  get_ready_loop rest completed failed (alter (visit completed failed) r h)
    (if from_option (becomes_ready completed failed) false (h !! r)
     then ready ++ [r] else ready).
Proof.
  simpl. destruct (h !! r) as [st|] eqn:E; simpl.
  - rewrite (alter_lookup_Some _ h r st E).
    unfold visit, becomes_ready.
    destruct (bool_decide (status st = PENDING)); simpl.
    + destruct (any_in failed (depends_on st)); simpl; [reflexivity|].
      destruct (all_in completed (depends_on st)); simpl; [reflexivity|].
      rewrite (list_insert_id h r st E). reflexivity.
    + rewrite (list_insert_id h r st E). reflexivity.
  - rewrite (alter_lookup_None _ h r E). reflexivity.
Qed.

Lemma get_ready_loop_store completed failed refs :
  forall h ready,
    fst (get_ready_loop refs completed failed h ready) =
    alter_all (visit completed failed) refs h.
Proof.
  induction refs as [|r rest IH]; intros h ready; [reflexivity|].
  rewrite get_ready_loop_cons, IH. reflexivity.
Qed.

Lemma get_ready_loop_ready completed failed refs :
  forall h ready r,
    r ∈ snd (get_ready_loop refs completed failed h ready) <->
    r ∈ ready \/
    (r ∈ refs /\ from_option (becomes_ready completed failed) false (h !! r) = true).
Proof.
  induction refs as [|r0 rest IH]; intros h ready r.
  - simpl. split; [auto|]. intros [H|[H _]]; [exact H|]. inversion H.
  - rewrite get_ready_loop_cons, IH. clear IH.
    rewrite list_lookup_alter.
    destruct (decide (r0 = r)) as [->|Hne].
    + assert (Hv : from_option (becomes_ready completed failed) false
                     (visit completed failed <$> h !! r) = false).
      { destruct (h !! r); simpl; [apply becomes_ready_visit | reflexivity]. }
      rewrite Hv.
      destruct (from_option (becomes_ready completed failed) false (h !! r)).
      * split; intros _.
        -- right. split; [apply list_elem_of_here | reflexivity].
        -- left. apply elem_of_app. right. apply list_elem_of_here.
      * split.
        -- intros [H|[_ H]]; [left; exact H | discriminate].
        -- intros [H|[_ H]]; [left; exact H | discriminate].
    + assert (Hr : r ∈ (if from_option (becomes_ready completed failed) false (h !! r0)
                        then ready ++ [r0] else ready) <-> r ∈ ready).
      { destruct (from_option _ _ _); [|reflexivity].
        rewrite elem_of_app, list_elem_of_singleton. split; [|auto].
        intros [H|H]; [exact H | exfalso; apply Hne; symmetry; exact H]. }
      rewrite Hr, elem_of_cons. split.
      * intros [H|[H1 H2]]; [left; exact H | right; auto].
      * intros [H|[[H1|H1] H2]]; [left; exact H | | right; auto].
        exfalso. apply Hne. symmetry. exact H1.
Qed.

Lemma seed_store refs : forall h, seed refs h = alter_all seed_one refs h.
Proof.
  induction refs as [|r rest IH]; intros h; [reflexivity|].
  unfold alter_all in *. simpl. destruct (h !! r) as [st|] eqn:E.
  - rewrite (alter_lookup_Some _ h r st E). unfold seed_one.
    destruct (depends_on st); [apply IH|].
    rewrite (list_insert_id h r st E). apply IH.
  - rewrite (alter_lookup_None _ h r E). apply IH.
Qed.

(** Reading the two membership tests. *)
Lemma any_in_true s deps :
  any_in s deps = true <-> exists dep, dep ∈ deps /\ dep ∈ s.
Proof.
  unfold any_in. induction deps as [|d ds IH]; simpl.
  - split; [discriminate|]. intros (dep & H & _). inversion H.
  - rewrite orb_true_iff, IH, bool_decide_eq_true. split.
    + intros [H|(dep & H1 & H2)].
      * exists d. split; [apply list_elem_of_here | exact H].
      * exists dep. split; [apply list_elem_of_further, H1 | exact H2].
    + intros (dep & [->|H1]%elem_of_cons & H2); [left; exact H2|].
      right. exists dep. auto.
Qed.

Lemma all_in_true s deps :
  all_in s deps = true <-> forall dep, dep ∈ deps -> dep ∈ s.
Proof.
  unfold all_in. induction deps as [|d ds IH]; simpl.
  - split; [|reflexivity]. intros _ dep H. inversion H.
  - rewrite andb_true_iff, IH, bool_decide_eq_true. split.
    + intros [H1 H2] dep [->|H]%elem_of_cons; auto.
    + intros H. split; [apply H, list_elem_of_here|].
      intros dep Hd. apply H, list_elem_of_further, Hd.
Qed.

Lemma any_in_empty deps : any_in ∅ deps = false.
Proof.
  destruct (any_in ∅ deps) eqn:E; [|reflexivity].
  apply any_in_true in E as (dep & _ & H). exfalso. revert H. apply not_elem_of_empty.
Qed.

Lemma all_in_empty_cons d deps : all_in ∅ (d :: deps) = false.
Proof.
  destruct (all_in ∅ (d :: deps)) eqn:E; [|reflexivity].
  exfalso. apply (not_elem_of_empty (C := gset string) d).
  apply (proj1 (all_in_true _ _) E), list_elem_of_here.
Qed.

(** *** What [execute] does after seeding *)

Lemma visit_idle st :
  (status st = PENDING -> depends_on st <> []) ->
  visit ∅ ∅ st = st /\ becomes_ready ∅ ∅ st = false.
Proof.
  intros Hdeps. unfold visit, becomes_ready.
  destruct (bool_decide (status st = PENDING)) eqn:Hp; simpl; [|auto].
  apply bool_decide_eq_true_1 in Hp. specialize (Hdeps Hp).
  rewrite any_in_empty. simpl.
  destruct (depends_on st) as [|d ds]; [congruence|].
  rewrite all_in_empty_cons. auto.
Qed.

Lemma get_ready_loop_idle refs :
  forall h ready,
    (forall r st, r ∈ refs -> h !! r = Some st -> status st = PENDING ->
                  depends_on st <> []) ->
    get_ready_loop refs ∅ ∅ h ready = (h, ready).
Proof.
  induction refs as [|r0 rest IH]; intros h ready Hdeps; [reflexivity|].
  rewrite get_ready_loop_cons.
  assert (Hr0 : r0 ∈ r0 :: rest) by apply list_elem_of_here.
  rewrite alter_fixed.
  - assert (Hb : from_option (becomes_ready ∅ ∅) false (h !! r0) = false).
    { destruct (h !! r0) as [st|] eqn:E; [|reflexivity]. simpl.
      apply visit_idle. intros Hp. exact (Hdeps r0 st Hr0 E Hp). }
    rewrite Hb. apply IH. intros r st Hin. apply Hdeps, list_elem_of_further, Hin.
  - intros st E. apply visit_idle. intros Hp. exact (Hdeps r0 st Hr0 E Hp).
Qed.

Lemma seed_lookup refs h r :
  seed refs h !! r = if bool_decide (r ∈ refs) then seed_one <$> h !! r else h !! r.
Proof. rewrite seed_store. apply alter_all_lookup, seed_one_idem. Qed.

Lemma seed_pending_has_deps refs h r st :
  r ∈ refs -> seed refs h !! r = Some st -> status st = PENDING -> depends_on st <> [].
Proof.
  intros Hin. rewrite seed_lookup, bool_decide_eq_true_2 by exact Hin.
  destruct (h !! r) as [st0|]; simpl; [|discriminate].
  intros [= <-]. unfold seed_one. destruct (depends_on st0) eqn:E; simpl.
  - discriminate.
  - intros _. rewrite E. discriminate.
Qed.

Lemma seed_not_running refs h r st :
  (forall st0, h !! r = Some st0 -> status st0 <> RUNNING) ->
  seed refs h !! r = Some st -> status st <> RUNNING.
Proof.
  intros Hnr. rewrite seed_lookup.
  destruct (bool_decide (r ∈ refs)); [|apply Hnr].
  destruct (h !! r) as [st0|]; simpl; [|discriminate].
  intros [= <-]. unfold seed_one. destruct (depends_on st0); simpl.
  - discriminate.
  - apply Hnr. reflexivity.
Qed.

Lemma running_steps_none refs h :
  (forall r st, r ∈ refs -> h !! r = Some st -> status st <> RUNNING) ->
  running_steps refs h = [].
Proof.
  unfold running_steps. induction refs as [|r0 rest IH]; intros Hnr; [reflexivity|].
  rewrite filter_cons. destruct (decide _) as [Hrun|_].
  - exfalso. destruct (h !! r0) as [st|] eqn:E; simpl in Hrun; [|discriminate].
    injection Hrun as Hrun. exact (Hnr r0 st (list_elem_of_here _ _) E Hrun).
  - apply IH. intros r st Hin. apply Hnr, list_elem_of_further, Hin.
Qed.

(** With every step object in its initial state, the first iteration of the
    loop finds nothing ready and nothing running: the seeded steps are READY,
    which [get_ready_steps] passes over, and the others wait for a
    [completed] set that is still empty. *)
Lemma execute_loop_idle fuel refs h w :
  (forall r st, r ∈ refs -> h !! r = Some st -> status st <> RUNNING) ->
  execute_loop (S fuel) refs ∅ ∅ (seed refs h) w = Some (Returns tt, seed refs h, w).
Proof.
  intros Hnr. simpl. unfold get_ready_steps.
  rewrite get_ready_loop_idle.
  - rewrite running_steps_none; [reflexivity|].
    intros r st Hin. apply seed_not_running. intros st0. apply Hnr, Hin.
  - intros r st. apply seed_pending_has_deps.
Qed.

Lemma execute_idle fuel refs h w :
  (forall r st, r ∈ refs -> h !! r = Some st -> status st <> RUNNING) ->
  exists res,
    execute (S fuel) refs h w =
      Some (Returns res, seed refs h, snd (time (snd (time w)))) /\
    steps res = refs.
Proof.
  intros Hnr. unfold execute.
  destruct (time w) as [t0 w0] eqn:E0.
  rewrite (execute_loop_idle fuel refs h w0 Hnr).
  simpl. destruct (time w0) as [t1 w1] eqn:E1. simpl.
  eexists. split; reflexivity.
Qed.

Lemma build_graph_loop_dom sts :
  forall graph x,
    x ∈ dom (build_graph_loop sts graph) <->
    x ∈ dom graph \/ exists st, st ∈ sts /\ id st = x.
Proof.
  induction sts as [|st0 rest IH]; intros graph x; simpl.
  - split; [auto|]. intros [H|(st & H & _)]; [exact H | inversion H].
  - rewrite IH, dom_insert, elem_of_union, elem_of_singleton. split.
    + intros [[->|H]|(st & H1 & H2)].
      * right. exists st0. split; [apply list_elem_of_here | reflexivity].
      * left. exact H.
      * right. exists st. split; [apply list_elem_of_further, H1 | exact H2].
    + intros [H|(st & [->|H1]%elem_of_cons & H2)].
      * left. right. exact H.
      * left. left. symmetry. exact H2.
      * right. exists st. auto.
Qed.

(** *** The claims about the DAG executor *)

(** C5 (amended). One call of [get_ready_steps] treats a step that is still
    PENDING as follows: if some dependency id is in [failed], the step becomes
    SKIPPED with error "Dependency failed" and is not in the ready list;
    otherwise, if every dependency id is in [completed], it becomes READY and
    is in the ready list; otherwise (some dependency id is missing from
    [completed], as is the id of a step that was itself SKIPPED) it is left
    as it was, PENDING, and is not in the ready list. *)
Theorem get_ready_steps_pending (refs : list nat) (completed failed : gset string)
    (h h' : list DAGStep) (ready : list nat) (r : nat) (st : DAGStep) :
  get_ready_steps refs completed failed h = (h', ready) ->
  r ∈ refs -> h !! r = Some st -> status st = PENDING ->
  ((exists dep, dep ∈ depends_on st /\ dep ∈ failed) ->
     h' !! r = Some (set_error (Some "Dependency failed") (set_status SKIPPED st))
     /\ r ∉ ready)
  /\ ((forall dep, dep ∈ depends_on st -> dep ∉ failed) ->
      (forall dep, dep ∈ depends_on st -> dep ∈ completed) ->
     h' !! r = Some (set_status READY st) /\ r ∈ ready)
  /\ ((forall dep, dep ∈ depends_on st -> dep ∉ failed) ->
      (exists dep, dep ∈ depends_on st /\ dep ∉ completed) ->
     h' !! r = Some st /\ status st = PENDING /\ r ∉ ready).
Proof.
  intros Hrun Hin Hst Hp. unfold get_ready_steps in Hrun.
  assert (Hh : h' !! r = Some (visit completed failed st)).
  { replace h' with (fst (get_ready_loop refs completed failed h [])) by (rewrite Hrun; reflexivity).
    rewrite get_ready_loop_store, alter_all_lookup by apply visit_idem.
    rewrite bool_decide_eq_true_2 by exact Hin. rewrite Hst. reflexivity. }
  assert (Hr : r ∈ ready <-> becomes_ready completed failed st = true).
  { replace ready with (snd (get_ready_loop refs completed failed h [])) by (rewrite Hrun; reflexivity).
    rewrite get_ready_loop_ready, Hst. simpl. split.
    - intros [H|[_ H]]; [inversion H | exact H].
    - intros H. right. auto. }
  rewrite Hh, Hr. unfold visit, becomes_ready.
  rewrite (bool_decide_eq_true_2 _ Hp). simpl.
  split; [|split].
  - intros Hf. apply any_in_true in Hf. rewrite Hf. simpl. split; [reflexivity | discriminate].
  - intros Hnf Hc.
    assert (Ha : any_in failed (depends_on st) = false).
    { destruct (any_in failed (depends_on st)) eqn:E; [|reflexivity].
      apply any_in_true in E as (dep & H1 & H2). exfalso. exact (Hnf dep H1 H2). }
    apply all_in_true in Hc. rewrite Ha, Hc. auto.
  - intros Hnf (dep & Hd & Hnc).
    assert (Ha : any_in failed (depends_on st) = false).
    { destruct (any_in failed (depends_on st)) eqn:E; [|reflexivity].
      apply any_in_true in E as (dep' & H1 & H2). exfalso. exact (Hnf dep' H1 H2). }
    assert (Hc : all_in completed (depends_on st) = false).
    { destruct (all_in completed (depends_on st)) eqn:E; [|reflexivity].
      exfalso. apply Hnc. exact (proj1 (all_in_true _ _) E dep Hd). }
    rewrite Ha, Hc. simpl. split; [reflexivity|]. split; [exact Hp | discriminate].
Qed.

(** C10. [execute_step] never raises: whatever the action does, it returns
    the reference it was given, and the step object behind it is the old one
    with status COMPLETED and the returned value as result when the action
    returned, and with status FAILED and [str(e)] as error when the action
    raised [e], a CatastrophicError included. *)
Theorem execute_step_total (r : nat) (h : list DAGStep) (w : W) (st : DAGStep) :
  h !! r = Some st ->
  exists o w' st',
    action st (params st) w = (o, w') /\
    execute_step r h w = (Returns r, <[r := st']> h, w') /\
    <[r := st']> h !! r = Some st' /\
    st' = match o with
          | Returns res =>
              mkStep (id st) (name st) (action st) (params st) (depends_on st)
                     COMPLETED res (error st)
          | Raises e =>
              mkStep (id st) (name st) (action st) (params st) (depends_on st)
                     FAILED (result st) (Some (str e))
          end /\
    (status st' = COMPLETED \/ status st' = FAILED).
Proof.
  intros Hst. unfold execute_step. rewrite Hst.
  pose proof (lookup_lt_Some _ _ _ Hst) as Hlt.
  destruct (action st (params st) w) as [[res|e] w'] eqn:Ha.
  - exists (Returns res), w'. eexists. split; [reflexivity|].
    split; [reflexivity|]. split; [apply list_lookup_insert_eq, Hlt|].
    split; [reflexivity | left; reflexivity].
  - exists (Raises e), w'. eexists. split; [reflexivity|].
    split; [reflexivity|]. split; [apply list_lookup_insert_eq, Hlt|].
    split; [reflexivity | right; reflexivity].
Qed.

Lemma build_graph_loop_lookup sts :
  forall graph x,
    build_graph_loop sts graph !! x =
    match last (filter (fun st => id st = x) sts) with
    | Some st => Some (list_to_set (depends_on st))
    | None => graph !! x
    end.
Proof.
  induction sts as [|st0 rest IH]; intros graph x; [reflexivity|].
  simpl. rewrite IH, filter_cons.
  destruct (decide (id st0 = x)) as [Heq|Hne].
  - rewrite last_cons. destruct (last (filter _ rest)); [reflexivity|].
    rewrite Heq. apply lookup_insert_eq.
  - destruct (last (filter _ rest)); [reflexivity|].
    apply lookup_insert_ne, Hne.
Qed.

Lemma seed_running_none refs h :
  (forall r st, r ∈ refs -> h !! r = Some st -> status st = RUNNING ->
                depends_on st = []) ->
  forall r st, r ∈ refs -> seed refs h !! r = Some st -> status st <> RUNNING.
Proof.
  intros Hrun r st Hin. rewrite seed_lookup, bool_decide_eq_true_2 by exact Hin.
  destruct (h !! r) as [st0|] eqn:E; simpl; [|discriminate].
  intros [= <-]. unfold seed_one. destruct (depends_on st0) eqn:Ed; simpl.
  - discriminate.
  - intros Hs. specialize (Hrun r st0 Hin E Hs). congruence.
Qed.

(** C9 (amended). Nothing is validated. [build_dependency_graph] maps every
    step list, cyclic or not, to the dictionary that gives each id of the
    list the set of the [depends_on] of the last step carrying it, unknown
    ids included, and has no other entry. [execute] returns a normal result
    for every step list in which no step with dependencies is already
    RUNNING (fresh step objects are PENDING), instead of raising a
    configuration error; a step that has a dependency (so every step on a
    cycle and every step naming an unknown id) is left untouched, and the
    world is the one after the two clock reads of [execute]: no action has
    run. *)
Theorem execute_without_validation (fuel : nat) (refs : list nat) (h : list DAGStep) (w : W) :
  (forall r st, r ∈ refs -> h !! r = Some st -> status st = RUNNING ->
                depends_on st = []) ->
  (forall x,
     build_dependency_graph (omap (fun r => h !! r) refs) !! x =
     (fun st => list_to_set (depends_on st))
       <$> last (filter (fun st => id st = x) (omap (fun r => h !! r) refs)))
  /\ exists res h',
    execute (S fuel) refs h w = Some (Returns res, h', snd (time (snd (time w)))) /\
    steps res = refs /\
    forall r st, r ∈ refs -> h !! r = Some st -> depends_on st <> [] ->
                 h' !! r = Some st.
Proof.
  intros Hrun. split.
  - intros x. unfold build_dependency_graph. rewrite build_graph_loop_lookup.
    destruct (last _); [reflexivity | apply lookup_empty].
  - assert (Hloop : forall w0,
      execute_loop (S fuel) refs ∅ ∅ (seed refs h) w0 = Some (Returns tt, seed refs h, w0)).
    { intros w0. simpl. unfold get_ready_steps. rewrite get_ready_loop_idle.
      - rewrite running_steps_none; [reflexivity|]. apply seed_running_none, Hrun.
      - intros r st. apply seed_pending_has_deps. }
    unfold execute. destruct (time w) as [t0 w0] eqn:E0. rewrite Hloop. simpl.
    destruct (time w0) as [t1 w1] eqn:E1. simpl.
    eexists _, (seed refs h). split; [reflexivity|]. split; [reflexivity|].
    intros r st Hin Hl Hd. rewrite seed_lookup, bool_decide_eq_true_2 by exact Hin.
    rewrite Hl. simpl. unfold seed_one. destruct (depends_on st); [congruence | reflexivity].
Qed.

(** *** More about the readiness query *)

Lemma alter_all_length (f : DAGStep -> DAGStep) refs :
  forall h, length (alter_all f refs h) = length h.
Proof.
  induction refs as [|r rest IH]; intros h; [reflexivity|].
  change (alter_all f (r :: rest) h) with (alter_all f rest (alter f r h)).
  rewrite IH. apply length_alter.
Qed.

Lemma get_ready_steps_lookup refs completed failed h r :
  fst (get_ready_steps refs completed failed h) !! r =
  if bool_decide (r ∈ refs) then visit completed failed <$> h !! r else h !! r.
Proof.
  unfold get_ready_steps. rewrite get_ready_loop_store.
  apply alter_all_lookup, visit_idem.
Qed.

Lemma get_ready_steps_ready refs completed failed h r :
  r ∈ snd (get_ready_steps refs completed failed h) <->
  r ∈ refs /\ from_option (becomes_ready completed failed) false (h !! r) = true.
Proof.
  unfold get_ready_steps. rewrite get_ready_loop_ready. split.
  - intros [H|H]; [inversion H | exact H].
  - auto.
Qed.

Lemma visit_not_pending completed failed st :
  status st <> PENDING ->
  visit completed failed st = st /\ becomes_ready completed failed st = false.
Proof.
  intros Hs. unfold visit, becomes_ready.
  rewrite (bool_decide_eq_false_2 _ Hs). auto.
Qed.

Lemma visit_keeps completed failed st :
  id (visit completed failed st) = id st /\
  name (visit completed failed st) = name st /\
  depends_on (visit completed failed st) = depends_on st /\
  result (visit completed failed st) = result st.
Proof.
  unfold visit. destruct (negb _); [auto|].
  destruct (any_in _ _); [auto|]. destruct (all_in _ _); auto.
Qed.

Lemma becomes_ready_true completed failed st :
  becomes_ready completed failed st = true <->
  status st = PENDING /\
  (forall dep, dep ∈ depends_on st -> dep ∉ failed) /\
  (forall dep, dep ∈ depends_on st -> dep ∈ completed).
Proof.
  unfold becomes_ready.
  rewrite !andb_true_iff, negb_true_iff, bool_decide_eq_true, all_in_true.
  split.
  - intros [[Hp Hf] Hc]. split; [exact Hp|]. split; [|exact Hc].
    intros dep Hd Hin.
    assert (Ht : any_in failed (depends_on st) = true)
      by (apply any_in_true; exists dep; auto).
    congruence.
  - intros (Hp & Hf & Hc). split; [|exact Hc]. split; [exact Hp|].
    destruct (any_in failed (depends_on st)) eqn:E; [|reflexivity].
    apply any_in_true in E as (dep & H1 & H2). exfalso. exact (Hf dep H1 H2).
Qed.

(** X1. [get_ready_steps] touches nothing but the status and the error of
    PENDING steps of its list: the store keeps its size, a step that is not
    PENDING stays as it is and is not handed out, a step object that the list
    does not refer to stays as it is, and no step changes its id, name,
    dependencies or result. *)
Theorem get_ready_steps_frame (refs : list nat) (completed failed : gset string)
    (h : list DAGStep) :
  let h' := fst (get_ready_steps refs completed failed h) in
  let ready := snd (get_ready_steps refs completed failed h) in
  length h' = length h /\
  (forall r st, h !! r = Some st -> status st <> PENDING ->
                h' !! r = Some st /\ r ∉ ready) /\
  (forall r, r ∉ refs -> h' !! r = h !! r /\ r ∉ ready) /\
  (forall r st', h' !! r = Some st' ->
     exists st, h !! r = Some st /\ id st' = id st /\ name st' = name st /\
                depends_on st' = depends_on st /\ result st' = result st).
Proof.
  intros h' ready. subst h' ready.
  split; [|split; [|split]].
  - unfold get_ready_steps. rewrite get_ready_loop_store. apply alter_all_length.
  - intros r st Hl Hs. destruct (visit_not_pending completed failed st Hs) as [Hv Hb].
    split.
    + rewrite get_ready_steps_lookup, Hl. simpl. rewrite Hv.
      destruct (bool_decide (r ∈ refs)); reflexivity.
    + rewrite get_ready_steps_ready, Hl. simpl. rewrite Hb. intros [_ H]. discriminate.
  - intros r Hin. split.
    + rewrite get_ready_steps_lookup, bool_decide_eq_false_2 by exact Hin. reflexivity.
    + rewrite get_ready_steps_ready. intros [H _]. exact (Hin H).
  - intros r st'. rewrite get_ready_steps_lookup.
    destruct (bool_decide (r ∈ refs)).
    + destruct (h !! r) as [st|]; simpl; [|discriminate].
      intros [= <-]. exists st. split; [reflexivity|]. apply visit_keeps.
    + intros Hl. exists st'. auto.
Qed.

Lemma get_ready_loop_nodup completed failed refs :
  forall h ready,
    NoDup ready ->
    (forall r, r ∈ ready ->
       from_option (becomes_ready completed failed) false (h !! r) = false) ->
    NoDup (snd (get_ready_loop refs completed failed h ready)).
Proof.
  induction refs as [|r0 rest IH]; intros h ready Hnd Hdone; [exact Hnd|].
  rewrite get_ready_loop_cons. apply IH.
  - destruct (from_option _ _ (h !! r0)) eqn:E; [|exact Hnd].
    apply NoDup_app. split; [exact Hnd|]. split; [|apply NoDup_singleton].
    intros r Hr ->%list_elem_of_singleton. rewrite (Hdone r0 Hr) in E. discriminate.
  - intros r Hr. rewrite list_lookup_alter.
    destruct (decide (r0 = r)) as [->|Hne].
    + destruct (h !! r); simpl; [apply becomes_ready_visit | reflexivity].
    + apply Hdone. destruct (from_option _ _ (h !! r0)); [|exact Hr].
      apply elem_of_app in Hr as [Hr|Hr%list_elem_of_singleton]; [exact Hr | congruence].
Qed.

(** X2. The ready list of [get_ready_steps] holds exactly the steps of the
    list that were PENDING with no dependency in [failed] and every
    dependency in [completed]; each of them once, however often the list
    refers to it, and each with status READY afterwards. *)
Theorem get_ready_steps_ready_list (refs : list nat) (completed failed : gset string)
    (h : list DAGStep) :
  let h' := fst (get_ready_steps refs completed failed h) in
  let ready := snd (get_ready_steps refs completed failed h) in
  NoDup ready /\
  (forall r, r ∈ ready <->
     r ∈ refs /\ exists st, h !! r = Some st /\ status st = PENDING /\
       (forall dep, dep ∈ depends_on st -> dep ∉ failed) /\
       (forall dep, dep ∈ depends_on st -> dep ∈ completed)) /\
  (forall r, r ∈ ready -> status <$> h' !! r = Some READY).
Proof.
  intros h' ready. subst h' ready.
  assert (Hchar : forall r, r ∈ snd (get_ready_steps refs completed failed h) <->
     r ∈ refs /\ exists st, h !! r = Some st /\ status st = PENDING /\
       (forall dep, dep ∈ depends_on st -> dep ∉ failed) /\
       (forall dep, dep ∈ depends_on st -> dep ∈ completed)).
  { intros r. rewrite get_ready_steps_ready. split.
    - intros [Hin Hb]. split; [exact Hin|].
      destruct (h !! r) as [st|]; simpl in Hb; [|discriminate].
      exists st. split; [reflexivity|]. apply becomes_ready_true, Hb.
    - intros [Hin (st & Hl & Hst)]. split; [exact Hin|].
      rewrite Hl. simpl. apply becomes_ready_true, Hst. }
  split; [|split; [exact Hchar|]].
  - unfold get_ready_steps. apply get_ready_loop_nodup; [apply NoDup_nil_2|].
    intros r Hr. inversion Hr.
  - intros r Hr. apply Hchar in Hr as [Hin (st & Hl & Hp & Hf & Hc)].
    rewrite get_ready_steps_lookup, bool_decide_eq_true_2, Hl by exact Hin. simpl.
    unfold visit. rewrite (bool_decide_eq_true_2 _ Hp). simpl.
    assert (Ha : any_in failed (depends_on st) = false).
    { destruct (any_in failed (depends_on st)) eqn:E; [|reflexivity].
      apply any_in_true in E as (dep & H1 & H2). exfalso. exact (Hf dep H1 H2). }
    rewrite Ha, (proj2 (all_in_true _ _) Hc). reflexivity.
Qed.

(** X3. Asking again with the same two sets changes nothing more and hands
    out nothing: a step is put in a ready list at most once. *)
Theorem get_ready_steps_again (refs : list nat) (completed failed : gset string)
    (h : list DAGStep) :
  let h' := fst (get_ready_steps refs completed failed h) in
  get_ready_steps refs completed failed h' = (h', []).
Proof.
  intros h'. subst h'.
  set (h1 := fst (get_ready_steps refs completed failed h)).
  destruct (get_ready_steps refs completed failed h1) as [h2 ready2] eqn:E.
  assert (Hh : h2 = h1).
  { replace h2 with (fst (get_ready_steps refs completed failed h1)) by (rewrite E; reflexivity).
    apply list_eq. intros r. rewrite get_ready_steps_lookup.
    destruct (bool_decide (r ∈ refs)) eqn:Hin; [|reflexivity].
    subst h1. rewrite get_ready_steps_lookup, Hin.
    destruct (h !! r); simpl; [rewrite visit_idem|]; reflexivity. }
  assert (Hr : ready2 = []).
  { apply elem_of_nil_inv. intros r Hr.
    replace ready2 with (snd (get_ready_steps refs completed failed h1)) in Hr
      by (rewrite E; reflexivity).
    apply get_ready_steps_ready in Hr as [Hin Hb].
    subst h1. rewrite get_ready_steps_lookup, bool_decide_eq_true_2 in Hb by exact Hin.
    destruct (h !! r); simpl in Hb; [|discriminate].
    rewrite becomes_ready_visit in Hb. discriminate. }
  rewrite Hh, Hr. reflexivity.
Qed.

(** *** Running the ready steps and recording the results *)

Lemma execute_step_effect r h w :
  exists h1 w1,
    execute_step r h w = (Returns r, h1, w1) /\
    length h1 = length h /\
    (forall r', r' <> r -> h1 !! r' = h !! r') /\
    (forall st, h !! r = Some st ->
       exists st', h1 !! r = Some st' /\
         (status st' = COMPLETED \/ status st' = FAILED) /\
         id st' = id st /\ depends_on st' = depends_on st).
Proof.
  unfold execute_step. destruct (h !! r) as [st|] eqn:E.
  - pose proof (lookup_lt_Some _ _ _ E) as Hlt.
    destruct (action st (params st) w) as [[res|e] w1]; eexists _, w1;
      (split; [reflexivity|]); (split; [apply length_insert|]);
      (split; [intros r' Hne; apply list_lookup_insert_ne; congruence|]);
      intros st0 [= <-]; eexists; (split; [apply list_lookup_insert_eq, Hlt|]);
      simpl; auto.
  - exists h, w. split; [reflexivity|]. split; [reflexivity|].
    split; [reflexivity|]. intros st Hst. discriminate.
Qed.

(** X4. [gather] over the ready steps never raises, whatever the actions do:
    it returns the references it was given, in order; afterwards every one of
    these steps is COMPLETED or FAILED, with its id and dependencies as
    before, and no other step object has changed. *)
Theorem gather_settles_every_task (tasks : list nat) (h : list DAGStep) (w : W) :
  exists h' w',
    gather tasks h w = (Returns tasks, h', w') /\
    length h' = length h /\
    (forall r, r ∉ tasks -> h' !! r = h !! r) /\
    (forall r st, r ∈ tasks -> h !! r = Some st ->
       exists st', h' !! r = Some st' /\
         (status st' = COMPLETED \/ status st' = FAILED) /\
         id st' = id st /\ depends_on st' = depends_on st).
Proof.
  revert h w. induction tasks as [|r0 rest IH]; intros h w.
  - exists h, w. split; [reflexivity|]. split; [reflexivity|].
    split; [reflexivity|]. intros r st Hr. inversion Hr.
  - destruct (execute_step_effect r0 h w) as (h1 & w1 & E1 & Hlen1 & Hfr1 & Hdone1).
    destruct (IH h1 w1) as (h2 & w2 & E2 & Hlen2 & Hfr2 & Hdone2).
    exists h2, w2. split; [simpl; rewrite E1, E2; reflexivity|].
    split; [congruence|]. split.
    + intros r Hr. rewrite not_elem_of_cons in Hr. destruct Hr as [Hne Hr].
      rewrite (Hfr2 r Hr). apply Hfr1, Hne.
    + intros r st Hr Hst.
      assert (H1 : exists st1, h1 !! r = Some st1 /\ id st1 = id st /\
                     depends_on st1 = depends_on st /\
                     (r = r0 -> status st1 = COMPLETED \/ status st1 = FAILED)).
      { destruct (decide (r = r0)) as [->|Hne].
        - destruct (Hdone1 st Hst) as (st' & Hl & Hs & Hi & Hd). exists st'. auto.
        - exists st. rewrite (Hfr1 r Hne). split; [exact Hst|].
          split; [reflexivity|]. split; [reflexivity|]. intros Heq. contradiction. }
      destruct H1 as (st1 & Hl1 & Hi1 & Hd1 & Hs1).
      destruct (decide (r ∈ rest)) as [Hin|Hnin].
      * destruct (Hdone2 r st1 Hin Hl1) as (st2 & Hl2 & Hs2 & Hi2 & Hd2).
        exists st2. split; [exact Hl2|]. split; [exact Hs2|]. split; congruence.
      * exists st1. rewrite (Hfr2 r Hnin). split; [exact Hl1|].
        apply elem_of_cons in Hr as [Hr|Hr]; [|contradiction]. auto.
Qed.

Lemma record_results_sets results h :
  forall completed failed x,
    (x ∈ fst (record_results results h completed failed) <->
       x ∈ completed \/
       exists r st, r ∈ results /\ h !! r = Some st /\
                    status st = COMPLETED /\ id st = x) /\
    (x ∈ snd (record_results results h completed failed) <->
       x ∈ failed \/
       exists r st, r ∈ results /\ h !! r = Some st /\
                    status st = FAILED /\ id st = x).
Proof.
  induction results as [|r0 rest IH]; intros completed failed x.
  - simpl. split; (split; [auto|]); intros [H|(r & st & H & _)]; auto; inversion H.
  - assert (Hshift : forall (s : StepStatus) (base : gset string) (add : Prop),
      (add <-> exists st, h !! r0 = Some st /\ status st = s /\ id st = x) ->
      ((add \/ x ∈ base) \/
        (exists r st, r ∈ rest /\ h !! r = Some st /\ status st = s /\ id st = x)) <->
      (x ∈ base \/
        exists r st, r ∈ r0 :: rest /\ h !! r = Some st /\ status st = s /\ id st = x)).
    { intros s base add Hadd. split.
      - intros [[Ha|Hb]|(r & st & Hr & Hrest)].
        + apply Hadd in Ha as (st & Ha). right. exists r0, st.
          split; [apply list_elem_of_here | exact Ha].
        + left. exact Hb.
        + right. exists r, st. split; [apply list_elem_of_further, Hr | exact Hrest].
      - intros [Hb|(r & st & [->|Hr]%elem_of_cons & Hrest)].
        + left. right. exact Hb.
        + left. left. apply Hadd. exists st. exact Hrest.
        + right. exists r, st. auto. }
    simpl. destruct (h !! r0) as [st0|] eqn:E0.
    + case_bool_decide as Hc; [|case_bool_decide as Hf].
      * destruct (IH ({[id st0]} ∪ completed) failed x) as [IHc IHf].
        rewrite IHc, IHf, elem_of_union, elem_of_singleton. split.
        -- apply Hshift. split.
           ++ intros ->. exists st0. auto.
           ++ intros (st & [= <-] & _ & Hid). symmetry. exact Hid.
        -- rewrite <- (Hshift FAILED failed False).
           ++ tauto.
           ++ split; [tauto|]. intros (st & [= <-] & Hs & _). congruence.
      * destruct (IH completed ({[id st0]} ∪ failed) x) as [IHc IHf].
        rewrite IHc, IHf, elem_of_union, elem_of_singleton. split.
        -- rewrite <- (Hshift COMPLETED completed False).
           ++ tauto.
           ++ split; [tauto|]. intros (st & [= <-] & Hs & _). congruence.
        -- apply Hshift. split.
           ++ intros ->. exists st0. auto.
           ++ intros (st & [= <-] & _ & Hid). symmetry. exact Hid.
      * destruct (IH completed failed x) as [IHc IHf]. rewrite IHc, IHf. split.
        -- rewrite <- (Hshift COMPLETED completed False).
           ++ tauto.
           ++ split; [tauto|]. intros (st & [= <-] & Hs & _). congruence.
        -- rewrite <- (Hshift FAILED failed False).
           ++ tauto.
           ++ split; [tauto|]. intros (st & [= <-] & Hs & _). congruence.
    + destruct (IH completed failed x) as [IHc IHf]. rewrite IHc, IHf. split.
      * rewrite <- (Hshift COMPLETED completed False).
        -- tauto.
        -- split; [tauto|]. intros (st & Hst & _). discriminate.
      * rewrite <- (Hshift FAILED failed False).
        -- tauto.
        -- split; [tauto|]. intros (st & Hst & _). discriminate.
Qed.

(** X5. The recording loop adds to [completed] exactly the ids of the
    results that are COMPLETED and to [failed] exactly the ids of the results
    that are FAILED; it removes nothing, and the id of a step in any other
    status (SKIPPED among them) enters neither set. *)
Theorem record_results_exact (results : list nat) (h : list DAGStep)
    (completed failed : gset string) (x : string) :
  let completed' := fst (record_results results h completed failed) in
  let failed' := snd (record_results results h completed failed) in
  (x ∈ completed' <->
     x ∈ completed \/
     exists r st, r ∈ results /\ h !! r = Some st /\ status st = COMPLETED /\ id st = x) /\
  (x ∈ failed' <->
     x ∈ failed \/
     exists r st, r ∈ results /\ h !! r = Some st /\ status st = FAILED /\ id st = x) /\
  (x ∉ completed -> x ∉ failed ->
     (forall r st, r ∈ results -> h !! r = Some st -> id st = x ->
                   status st <> COMPLETED /\ status st <> FAILED) ->
     (x ∉ completed') /\ (x ∉ failed')).
Proof.
  intros completed' failed'. subst completed' failed'.
  destruct (record_results_sets results h completed failed x) as [Hc Hf].
  split; [exact Hc|]. split; [exact Hf|].
  intros Hnc Hnf Hother. split.
  - rewrite Hc. intros [H|(r & st & Hr & Hst & Hs & Hid)]; [exact (Hnc H)|].
    exact (proj1 (Hother r st Hr Hst Hid) Hs).
  - rewrite Hf. intros [H|(r & st & Hr & Hst & Hs & Hid)]; [exact (Hnf H)|].
    exact (proj2 (Hother r st Hr Hst Hid) Hs).
Qed.

(** X6. One round of the loop of [execute] accounts for every step it
    dispatches: after [get_ready_steps], [gather] over the ready list and the
    recording loop, the id of each step that was handed out as ready is in
    [completed] or in [failed], and both sets have only grown. *)
Theorem round_accounts_for_ready (refs : list nat) (completed failed : gset string)
    (h : list DAGStep) (w : W) :
  let h1 := fst (get_ready_steps refs completed failed h) in
  let ready := snd (get_ready_steps refs completed failed h) in
  exists h2 w2,
    gather ready h1 w = (Returns ready, h2, w2) /\
    let completed' := fst (record_results ready h2 completed failed) in
    let failed' := snd (record_results ready h2 completed failed) in
    completed ⊆ completed' /\ failed ⊆ failed' /\
    forall r st, r ∈ ready -> h !! r = Some st ->
      id st ∈ completed' \/ id st ∈ failed'.
Proof.
  intros h1 ready.
  destruct (gather_settles_every_task ready h1 w) as (h2 & w2 & Eg & _ & _ & Hdone).
  exists h2, w2. split; [exact Eg|]. intros completed' failed'.
  subst completed' failed'. split; [|split].
  - intros x Hx. apply record_results_sets. left. exact Hx.
  - intros x Hx. apply record_results_sets. left. exact Hx.
  - intros r st Hr Hst.
    assert (Hl1 : exists st1, h1 !! r = Some st1 /\ id st1 = id st).
    { subst h1. rewrite get_ready_steps_lookup, Hst.
      destruct (bool_decide (r ∈ refs)); simpl; eexists; split; try reflexivity.
      apply visit_keeps. }
    destruct Hl1 as (st1 & Hl1 & Hi1).
    destruct (Hdone r st1 Hr Hl1) as (st2 & Hl2 & [Hs|Hs] & Hi2 & _).
    + left. apply record_results_sets. right. exists r, st2.
      split; [exact Hr|]. split; [exact Hl2|]. split; [exact Hs | congruence].
    + right. apply record_results_sets. right. exists r, st2.
      split; [exact Hr|]. split; [exact Hl2|]. split; [exact Hs | congruence].
Qed.

(** *** The dependency dictionary and the result counters *)

(** X7. In the dictionary of [build_dependency_graph] an id is mapped to the
    dependency set of the last step of the list that carries it (an earlier
    step with the same id is overwritten), and an id that no step carries has
    no entry. *)
Theorem build_dependency_graph_last_wins (sts : list DAGStep) (x : string) :
  build_dependency_graph sts !! x =
  (fun st => list_to_set (depends_on st)) <$> last (filter (fun st => id st = x) sts).
Proof.
  unfold build_dependency_graph. rewrite build_graph_loop_lookup.
  destruct (last _); [reflexivity | apply lookup_empty].
Qed.

Lemma count_status_cons s r refs h :
  count_status s (r :: refs) h =
  ((if bool_decide (status <$> h !! r = Some s) then 1 else 0) + count_status s refs h)%nat.
Proof.
  unfold count_status. rewrite filter_cons.
  destruct (decide _) as [H|H].
  - rewrite (bool_decide_eq_true_2 _ H). reflexivity.
  - rewrite (bool_decide_eq_false_2 _ H). reflexivity.
Qed.

(** X8. Every step of a result is counted under exactly one status, so
    [success_count] and [failed_count] together leave out the steps that are
    SKIPPED, PENDING, READY or RUNNING: the six counts add up to the number
    of steps, and [success_count + failed_count] never exceeds it. *)
Theorem status_counts_partition (res : DAGExecutionResult) (h : list DAGStep) :
  (forall r, r ∈ steps res -> is_Some (h !! r)) ->
  (success_count res h + failed_count res h
   + count_status SKIPPED (steps res) h + count_status PENDING (steps res) h
   + count_status READY (steps res) h + count_status RUNNING (steps res) h
   = length (steps res))%nat /\
  (success_count res h + failed_count res h <= length (steps res))%nat.
Proof.
  unfold success_count, failed_count. intros Hvalid.
  assert (Hsum : (count_status COMPLETED (steps res) h + count_status FAILED (steps res) h
     + count_status SKIPPED (steps res) h + count_status PENDING (steps res) h
     + count_status READY (steps res) h + count_status RUNNING (steps res) h
     = length (steps res))%nat).
  { induction (steps res) as [|r rest IH]; [reflexivity|].
    rewrite !count_status_cons. simpl length.
    assert (IH' := IH (fun r' Hr' => Hvalid r' (list_elem_of_further _ _ _ Hr'))).
    destruct (Hvalid r (list_elem_of_here _ _)) as [st Hst].
    rewrite Hst. simpl.
    destruct (status st); repeat case_bool_decide; try congruence; lia. }
  split; [exact Hsum | lia].
Qed.

(** *** A step that is already RUNNING *)

Lemma execute_loop_polls fuel refs h :
  get_ready_steps refs ∅ ∅ h = (h, []) ->
  running_steps refs h <> [] ->
  forall w, execute_loop fuel refs ∅ ∅ h w = None.
Proof.
  intros Hidle Hrun. induction fuel as [|fuel IH]; intros w; [reflexivity|].
  simpl. rewrite Hidle. destruct (running_steps refs h); [congruence|]. apply IH.
Qed.

(** X9. [execute] never returns when it is given a step that has
    dependencies and is already RUNNING (a step list handed in again while an
    earlier run is under way): nothing is ready, the RUNNING step keeps the
    loop polling, and nothing in the loop can change a status, so every bound
    on the number of iterations is hit. *)
Theorem execute_polls_forever (refs : list nat) (h : list DAGStep) (r : nat)
    (st : DAGStep) :
  r ∈ refs -> h !! r = Some st -> status st = RUNNING -> depends_on st <> [] ->
  forall fuel w, execute fuel refs h w = None.
Proof.
  intros Hin Hst Hs Hd fuel w. unfold execute.
  destruct (time w) as [t0 w0].
  rewrite execute_loop_polls; [reflexivity| |].
  - unfold get_ready_steps. apply get_ready_loop_idle.
    intros r' st'. apply seed_pending_has_deps.
  - assert (Hl : seed refs h !! r = Some st).
    { rewrite seed_lookup, bool_decide_eq_true_2, Hst by exact Hin. simpl.
      unfold seed_one. destruct (depends_on st); [congruence | reflexivity]. }
    assert (Hr : r ∈ running_steps refs (seed refs h)).
    { unfold running_steps. apply list_elem_of_filter. split; [|exact Hin].
      rewrite Hl. simpl. rewrite Hs. reflexivity. }
    intros E. rewrite E in Hr. inversion Hr.
Qed.

(** *** The levels of [visualize_dag] *)

Lemma max_level_bounds step_levels d ds :
  (forall dep, dep ∈ d :: ds ->
     (default 0 (step_levels !! dep) <= max_level step_levels d ds)%Z) /\
  (exists dep, dep ∈ d :: ds /\
     max_level step_levels d ds = default 0%Z (step_levels !! dep)).
Proof.
  unfold max_level.
  induction ds as [|d' ds IH] using rev_ind.
  - simpl. split.
    + intros dep ->%list_elem_of_singleton. lia.
    + exists d. split; [apply list_elem_of_here | reflexivity].
  - rewrite foldl_app. simpl. destruct IH as [IHle (dep0 & Hin0 & Heq0)]. split.
    + intros dep Hin.
      change (d :: ds ++ [d']) with ((d :: ds) ++ [d']) in Hin.
      apply elem_of_app in Hin as [Hin| ->%list_elem_of_singleton]; [|lia].
      specialize (IHle dep Hin). lia.
    + destruct (Z.max_spec
        (foldl (fun m dep => Z.max m (default 0%Z (step_levels !! dep)))
               (default 0%Z (step_levels !! d)) ds)
        (default 0%Z (step_levels !! d'))) as [[_ ->]|[_ ->]].
      * exists d'. split; [|reflexivity].
        change (d :: ds ++ [d']) with ((d :: ds) ++ [d']).
        apply elem_of_app. right. apply list_elem_of_here.
      * exists dep0. split; [|exact Heq0].
        change (d :: ds ++ [d']) with ((d :: ds) ++ [d']).
        apply elem_of_app. left. exact Hin0.
Qed.

Lemma levels_loop_placed sts :
  forall (seen : gset string) levels step_levels,
    (forall x, x ∈ seen <-> is_Some (step_levels !! x)) ->
    (forall x l, step_levels !! x = Some l -> (0 <= l)%Z) ->
    topological seen sts = true ->
    (forall x l, step_levels !! x = Some l ->
       snd (levels_loop sts levels step_levels) !! x = Some l) /\
    (forall st, st ∈ sts -> well_placed (snd (levels_loop sts levels step_levels)) st).
Proof.
  induction sts as [|st0 rest IH]; intros seen levels step_levels Hdom Hpos Htop.
  - split; [auto|]. intros st Hst. inversion Hst.
  - simpl in Htop. apply andb_true_iff in Htop as [Htop Hrest].
    apply andb_true_iff in Htop as [Hfresh Hdeps].
    apply negb_true_iff, bool_decide_eq_false in Hfresh.
    rewrite all_in_true in Hdeps.
    assert (Hknown : forall dep, dep ∈ depends_on st0 ->
              exists ld, step_levels !! dep = Some ld /\ (0 <= ld)%Z /\ dep <> id st0).
    { intros dep Hd. destruct (proj1 (Hdom dep) (Hdeps dep Hd)) as [ld Hld].
      exists ld. split; [exact Hld|]. split; [exact (Hpos dep ld Hld)|].
      intros ->. apply Hfresh, Hdeps, Hd. }
    assert (Hlvl : (0 <= level_of step_levels st0)%Z).
    { unfold level_of. destruct (depends_on st0) as [|d ds]; [lia|].
      destruct (max_level_bounds step_levels d ds) as [Hle _].
      specialize (Hle d (list_elem_of_here _ _)).
      destruct (Hknown d (list_elem_of_here _ _)) as (ld & Hld & Hpos' & _).
      rewrite Hld in Hle. simpl in Hle. lia. }
    simpl.
    destruct (IH ({[id st0]} ∪ seen)
                 (<[level_of step_levels st0 :=
                      default [] (levels !! level_of step_levels st0) ++ [st0]]> levels)
                 (<[id st0 := level_of step_levels st0]> step_levels))
      as [IHkeep IHplaced].
    + intros x. rewrite elem_of_union, elem_of_singleton, lookup_insert_is_Some, Hdom.
      split.
      * intros [->|H]; [left; reflexivity|].
        destruct (decide (id st0 = x)); [left; assumption | right; auto].
      * intros [->|[_ H]]; auto.
    + intros x l. rewrite lookup_insert_Some. intros [[_ <-]|[_ H]]; [exact Hlvl|].
      exact (Hpos x l H).
    + exact Hrest.
    + split.
      * intros x l Hx. apply IHkeep. rewrite lookup_insert_ne; [exact Hx|].
        intros <-. apply Hfresh, Hdom. eauto.
      * intros st [->|Hin]%elem_of_cons; [|apply IHplaced, Hin].
        exists (level_of step_levels st0).
        assert (Hdep : forall dep ld, dep ∈ depends_on st0 -> step_levels !! dep = Some ld ->
                  snd (levels_loop rest
                    (<[level_of step_levels st0 :=
                         default [] (levels !! level_of step_levels st0) ++ [st0]]> levels)
                    (<[id st0 := level_of step_levels st0]> step_levels)) !! dep = Some ld).
        { intros dep ld Hd Hld. apply IHkeep. rewrite lookup_insert_ne; [exact Hld|].
          destruct (Hknown dep Hd) as (_ & _ & _ & Hne). congruence. }
        split; [apply IHkeep, lookup_insert_eq|]. split; [|split].
        -- intros E. unfold level_of. rewrite E. reflexivity.
        -- intros Hne.
           destruct (depends_on st0) as [|d ds] eqn:E; [congruence|].
           destruct (max_level_bounds step_levels d ds) as [_ (dep & Hd & Heq)].
           exists dep. split; [exact Hd|].
           destruct (Hknown dep Hd) as (ld & Hld & _).
           rewrite (Hdep dep ld Hd Hld). f_equal.
           unfold level_of. rewrite E, Heq, Hld. simpl. lia.
        -- intros dep Hd. destruct (Hknown dep Hd) as (ld & Hld & Hpos' & _).
           exists ld. split; [exact (Hdep dep ld Hd Hld)|]. split; [exact Hpos'|].
           unfold level_of. destruct (depends_on st0) as [|d ds]; [inversion Hd|].
           destruct (max_level_bounds step_levels d ds) as [Hle _].
           specialize (Hle dep Hd). rewrite Hld in Hle. simpl in Hle. lia.
Qed.

(** X10. For a step list without repeated ids in which every dependency is
    the id of an earlier step, the levels of [visualize_dag] respect the
    dependencies: a step without dependencies is at level 0, any other step
    is exactly one level above the highest of its dependencies, and so
    strictly above each of them. *)
Theorem visualize_dag_levels (sts : list DAGStep) (st : DAGStep) :
  topological ∅ sts = true -> st ∈ sts ->
  let step_levels := snd (levels_loop sts ∅ ∅) in
  exists l, step_levels !! id st = Some l /\
    (depends_on st = [] -> l = 0%Z) /\
    (depends_on st <> [] ->
       exists dep, dep ∈ depends_on st /\ step_levels !! dep = Some (l - 1)%Z) /\
    (forall dep, dep ∈ depends_on st ->
       exists ld, step_levels !! dep = Some ld /\ (0 <= ld < l)%Z).
Proof.
  intros Htop Hin.
  destruct (levels_loop_placed sts ∅ ∅ ∅) as [_ H].
  - intros x. rewrite lookup_empty. split.
    + intros Hx. exfalso. revert Hx. apply not_elem_of_empty.
    + intros [l Hl]. discriminate.
  - intros x l. rewrite lookup_empty. discriminate.
  - exact Htop.
  - exact (H st Hin).
Qed.

Lemma listed_insert (levels : gmap Z (list DAGStep)) level st :
  listed (<[level := default [] (levels !! level) ++ [st]]> levels) ≡ₚ listed levels ++ [st].
Proof.
  unfold listed. destruct (levels !! level) as [l|] eqn:E; simpl.
  - rewrite <- (insert_delete_eq levels level (l ++ [st])).
    rewrite map_to_list_insert by apply lookup_delete_eq.
    rewrite <- (map_to_list_delete levels level l E). simpl.
    rewrite <- !(assoc_L (++)). apply Permutation_app_head, Permutation_app_comm.
  - rewrite map_to_list_insert by exact E. simpl. apply Permutation_cons_append.
Qed.

Lemma levels_loop_listed sts :
  forall levels step_levels,
    listed (fst (levels_loop sts levels step_levels)) ≡ₚ listed levels ++ sts.
Proof.
  induction sts as [|st0 rest IH]; intros levels step_levels; simpl.
  - rewrite app_nil_r. reflexivity.
  - rewrite IH, listed_insert, <- (assoc_L (++)). reflexivity.
Qed.

Lemma levels_loop_nonempty sts :
  forall levels step_levels,
    (forall k l, levels !! k = Some l -> l <> []) ->
    forall k l, fst (levels_loop sts levels step_levels) !! k = Some l -> l <> [].
Proof.
  induction sts as [|st0 rest IH]; intros levels step_levels Hne; simpl; [exact Hne|].
  apply IH. intros k l. rewrite lookup_insert_Some.
  intros [[_ <-]|[_ H]]; [|exact (Hne k l H)].
  intros E. apply app_eq_nil in E as [_ E]. discriminate.
Qed.

Lemma level_rows_listed (levels : gmap Z (list DAGStep)) :
  mjoin (map snd (level_rows levels)) ≡ₚ map id (listed levels).
Proof.
  unfold level_rows, sorted_keys, listed.
  rewrite map_map. simpl.
  rewrite (merge_sort_Permutation Z.le (map fst (map_to_list levels))).
  rewrite map_map.
  assert (H : forall l : list (Z * list DAGStep),
            (forall kv, kv ∈ l -> levels !! fst kv = Some (snd kv)) ->
            mjoin (map (fun kv => map id (default [] (levels !! fst kv))) l)
            = map id (mjoin (map snd l))).
  { induction l as [|kv l IH]; intros Hl; [reflexivity|].
    simpl. rewrite map_app, IH, (Hl kv (list_elem_of_here _ _)); [reflexivity|].
    intros kv' Hkv'. apply Hl, list_elem_of_further, Hkv'. }
  rewrite H; [reflexivity|].
  intros [k v] Hkv. apply elem_of_map_to_list, Hkv.
Qed.

(** X11. The rows that [visualize_dag] prints list every step of the list
    exactly once: the row levels are increasing and not repeated, no row is
    empty, and the ids of all rows together are the ids of the step list, up
    to order. This holds for every step list, ordered or not. *)
Theorem visualize_dag_rows (sts : list DAGStep) :
  let rows := level_rows (fst (levels_loop sts ∅ ∅)) in
  Sorted Z.le (map fst rows) /\ NoDup (map fst rows) /\
  (forall row, row ∈ rows -> snd row <> []) /\
  mjoin (map snd rows) ≡ₚ map id sts /\
  visualize_dag sts =
    [""; "DAG Structure:"; "----------------------------------------"]
    ++ mjoin (map print_row rows).
Proof.
  intros rows. subst rows.
  set (levels := fst (levels_loop sts ∅ ∅)).
  assert (Hkeys : map fst (level_rows levels) = sorted_keys levels).
  { unfold level_rows. rewrite map_map. simpl. apply map_id. }
  split; [|split; [|split; [|split]]].
  - rewrite Hkeys. apply Sorted_merge_sort. intros x y. apply Z.le_ge_cases.
  - rewrite Hkeys. unfold sorted_keys. rewrite merge_sort_Permutation.
    apply NoDup_fst_map_to_list.
  - intros row Hrow. unfold level_rows in Hrow.
    apply list_elem_of_fmap in Hrow as (k & -> & Hk). simpl.
    unfold sorted_keys in Hk. rewrite merge_sort_Permutation in Hk.
    apply list_elem_of_fmap in Hk as ([k' l] & -> & Hkl). simpl.
    apply elem_of_map_to_list in Hkl. rewrite Hkl. simpl.
    intros E. apply fmap_nil_inv in E. revert E.
    apply (levels_loop_nonempty sts ∅ ∅) with (k := k'); [|exact Hkl].
    intros k0 l0. rewrite lookup_empty. discriminate.
  - rewrite level_rows_listed. subst levels.
    rewrite (levels_loop_listed sts ∅ ∅). unfold listed.
    rewrite map_to_list_empty. reflexivity.
  - reflexivity.
Qed.

End Executor.

Arguments mkStep {W Params} _ _ _ _ _ _ _ _.
Arguments id {W Params} _.
Arguments name {W Params} _.
Arguments action {W Params} _ _ _.
Arguments params {W Params} _.
Arguments depends_on {W Params} _.
Arguments status {W Params} _.
Arguments result {W Params} _.
Arguments error {W Params} _.
Arguments set_status {W Params} _ _.
Arguments set_error {W Params} _ _.
Arguments set_result {W Params} _ _.
Arguments count_status {W Params} _ _ _.
Arguments build_dependency_graph {W Params} _.
Arguments get_ready_steps {W Params} _ _ _ _.
Arguments execute_step {W Params} _ _ _.
Arguments gather {W Params} _ _ _.
Arguments seed {W Params} _ _.
Arguments execute {W Params} _ _ _ _ _ _.
Arguments success_count {W Params} _ _.
Arguments failed_count {W Params} _ _.
Arguments levels_loop {W Params} _ _ _.
Arguments level_rows {W Params} _.
Arguments visualize_dag {W Params} _.
Arguments topological {W Params} _ _.

End Dag.

(** ** The demo of dag_executor.py and small graphs *)

Module DagDemo.
Import Dag.

(** The world of the demo: the wall clock and the names of the tasks that
    [simulate_task] has run so far. *)
Record World := mkWorld { now : Q; calls : list string }.

Definition time (w : World) : Q * World := (now w, w).
Definition sleep (d : Q) (w : World) : World := mkWorld (now w + d)%Q (calls w).

(** [simulate_task] *)
Definition simulate_task (name : string) (duration : Q) (w : World) : Outcome string * World :=
  (Returns ("Completed: " +:+ name), mkWorld (now w + duration)%Q (calls w ++ [name])).

(** A fresh [DAGStep] whose action is [lambda: simulate_task(id)]. *)
Definition step (i : string) (n : string) (deps : list string) : DAGStep World unit :=
  mkStep i n (fun _ => simulate_task i (1 # 2)) tt deps PENDING "" None.

(** [create_sample_dag] *)
Definition create_sample_dag : list (DAGStep World unit) :=
  [ step "fetch_data" "データ取得" [];
    step "process_a" "処理A（分析）" ["fetch_data"];
    step "process_b" "処理B（変換）" ["fetch_data"];
    step "process_c" "処理C（検証）" ["fetch_data"];
    step "merge_results" "結果統合" ["process_a"; "process_b"; "process_c"];
    step "generate_report" "レポート生成" ["merge_results"] ].

Definition sample_refs : list nat := [0; 1; 2; 3; 4; 5]%nat.
Definition w0 : World := mkWorld 0 [].

Definition run_sample (fuel : nat) :=
  execute time sleep fuel sample_refs create_sample_dag w0.

(** Two steps that depend on each other, and a step that names a
    dependency no step has. *)
Definition cyclic : list (DAGStep World unit) :=
  [ step "a" "a" ["b"]; step "b" "b" ["a"]; step "c" "c" ["missing"] ].

(** A chain a <- b <- c in which a has already FAILED. *)
Definition chain : list (DAGStep World unit) :=
  [ set_status FAILED (step "a" "a" []); step "b" "b" ["a"]; step "c" "c" ["b"] ].

Definition chain_refs : list nat := [0; 1; 2]%nat.

(** The store after a first readiness query on [chain] with a in [failed]. *)
Definition chain_queried : list (DAGStep World unit) :=
  fst (get_ready_steps chain_refs ∅ {["a"]} chain).

(** An action that raises a CatastrophicError. *)
Definition fatal_step : DAGStep World unit :=
  mkStep "x" "x" (fun _ w => (Raises (CatastrophicError "security violation"), w))
         tt [] PENDING "" None.

(** A step with a dependency that is RUNNING when [execute] is called. *)
Definition busy : list (DAGStep World unit) :=
  [ step "a" "a" []; set_status RUNNING (step "b" "b" ["a"]) ].

(** C1 (code at the failing input). On the sample DAG of the demo the run
    returns after the first iteration, whatever the iteration bound: no task
    has run, [fetch_data] is left READY and the five other steps PENDING, so
    completed + failed + skipped + pending is 5 of 6 steps, and steps are
    PENDING though nothing aborted the run. *)
Theorem sample_dag_left_unexecuted :
  forall fuel, exists res h',
    run_sample (S fuel) = Some (Returns res, h', w0) /\
    calls w0 = [] /\
    map status h' = [READY; PENDING; PENDING; PENDING; PENDING; PENDING] /\
    (count_status COMPLETED sample_refs h' + count_status FAILED sample_refs h'
     + count_status SKIPPED sample_refs h' + count_status PENDING sample_refs h' = 5)%nat /\
    length sample_refs = 6%nat.
Proof.
  intros fuel. unfold run_sample.
  destruct (execute_idle World unit time sleep fuel sample_refs create_sample_dag w0)
    as (res & He & _).
  { intros r st Hin Hl. apply list_elem_of_lookup_2 in Hl.
    repeat (apply elem_of_cons in Hl as [->|Hl]; [discriminate|]). inversion Hl. }
  exists res, (seed sample_refs create_sample_dag).
  split; [exact He|]. vm_compute. repeat split; reflexivity.
Qed.

(** C5 (counterexample). In the chain a <- b <- c with a FAILED and "a" in
    [failed], a first query skips b; c, whose only dependency b is now
    SKIPPED, is still PENDING after that query and after a second one, and it
    is in no ready list. *)
Lemma skipped_dependency_not_propagated :
  status <$> chain_queried !! 1%nat = Some SKIPPED /\
  depends_on <$> chain_queried !! 2%nat = Some ["b"] /\
  status <$> chain_queried !! 2%nat = Some PENDING /\
  status <$> fst (get_ready_steps chain_refs ∅ {["a"]} chain_queried) !! 2%nat
    = Some PENDING /\
  status <$> fst (get_ready_steps chain_refs ∅ {["a"]} chain_queried) !! 2%nat
    <> Some SKIPPED /\
  snd (get_ready_steps chain_refs ∅ {["a"]} chain_queried) = [].
Proof. vm_compute. repeat split; try reflexivity. discriminate. Qed.

(** The first query on the chain: b, whose dependency a is in [failed],
    becomes SKIPPED and is not ready. *)
Lemma get_ready_steps_pending_witness :
  chain_queried !! 1%nat
    = Some (set_error (Some "Dependency failed") (set_status SKIPPED (step "b" "b" ["a"])))
  /\ 1%nat ∉ ([] : list nat).
Proof.
  apply (get_ready_steps_pending World unit chain_refs ∅ {["a"]} chain chain_queried []
           1%nat (step "b" "b" ["a"])).
  - reflexivity.
  - apply list_elem_of_further, list_elem_of_here.
  - reflexivity.
  - reflexivity.
  - exists "a". split; [apply list_elem_of_here | apply elem_of_singleton; reflexivity].
Defined.

(** C9 (counterexample). On a graph with the cycle a <-> b and with a step
    c whose dependency names no step, [build_dependency_graph] returns the
    dictionary with the cycle and the unknown id in it, and [execute]
    returns a normal result; no error is raised, and the three steps are
    left PENDING. *)
Lemma cyclic_graph_returns_normally :
  depends_on <$> cyclic !! 0%nat = Some ["b"] /\
  depends_on <$> cyclic !! 1%nat = Some ["a"] /\
  depends_on <$> cyclic !! 2%nat = Some ["missing"] /\
  build_dependency_graph cyclic !! "a" = Some {["b"]} /\
  build_dependency_graph cyclic !! "b" = Some {["a"]} /\
  build_dependency_graph cyclic !! "c" = Some {["missing"]} /\
  exists res h',
    execute time sleep 5 chain_refs cyclic w0 = Some (Returns res, h', w0) /\
    map status h' = [PENDING; PENDING; PENDING].
Proof.
  repeat (split; [vm_compute; reflexivity|]).
  destruct (execute_idle World unit time sleep 4 chain_refs cyclic w0) as (res & He & _).
  { intros r st Hin Hl. apply list_elem_of_lookup_2 in Hl.
    repeat (apply elem_of_cons in Hl as [->|Hl]; [discriminate|]). inversion Hl. }
  exists res, (seed chain_refs cyclic). split; [exact He | reflexivity].
Qed.

(** The cyclic graph goes through [build_dependency_graph] and [execute]
    like any other. *)
Lemma execute_without_validation_witness :
  (forall x,
     build_dependency_graph (omap (fun r => cyclic !! r) chain_refs) !! x =
     (fun st => list_to_set (depends_on st))
       <$> last (filter (fun st => id st = x) (omap (fun r => cyclic !! r) chain_refs)))
  /\ exists res h',
    execute time sleep 1 chain_refs cyclic w0 = Some (Returns res, h', w0) /\
    steps res = chain_refs /\
    forall r st, r ∈ chain_refs -> cyclic !! r = Some st -> depends_on st <> [] ->
                 h' !! r = Some st.
Proof.
  apply (execute_without_validation World unit time sleep 0 chain_refs cyclic w0).
  intros r st Hin Hl Hs. apply list_elem_of_lookup_2 in Hl.
  repeat (apply elem_of_cons in Hl as [->|Hl]; [discriminate Hs|]). inversion Hl.
Defined.

(** [execute_step] on the step whose action raises a CatastrophicError. *)
Lemma execute_step_total_witness :
  exists o w' st',
    action fatal_step (params fatal_step) w0 = (o, w') /\
    execute_step 0 [fatal_step] w0 = (Returns 0%nat, <[0%nat := st']> [fatal_step], w') /\
    <[0%nat := st']> [fatal_step] !! 0%nat = Some st' /\
    st' = match o with
          | Returns res =>
              mkStep (id fatal_step) (name fatal_step) (action fatal_step)
                     (params fatal_step) (depends_on fatal_step)
                     COMPLETED res (error fatal_step)
          | Raises e =>
              mkStep (id fatal_step) (name fatal_step) (action fatal_step)
                     (params fatal_step) (depends_on fatal_step)
                     FAILED (result fatal_step) (Some (str e))
          end /\
    (status st' = COMPLETED \/ status st' = FAILED).
Proof.
  apply (execute_step_total World unit 0%nat [fatal_step] w0 fatal_step).
  reflexivity.
Defined.

(** The catastrophic action above leaves its step FAILED with the message
    as error, and nothing is raised. *)
Example execute_step_catches_catastrophic :
  execute_step 0 [fatal_step] w0 =
    (Returns 0%nat,
     [set_status FAILED (set_error (Some "security violation") fatal_step)], w0).
Proof. reflexivity. Qed.

(** *** Instances of the further properties *)

(** The counters on the sample DAG as [create_sample_dag] returns it. *)
Lemma status_counts_partition_witness :
  (success_count (mkResult sample_refs 0 1) create_sample_dag
   + failed_count (mkResult sample_refs 0 1) create_sample_dag
   + count_status SKIPPED sample_refs create_sample_dag
   + count_status PENDING sample_refs create_sample_dag
   + count_status READY sample_refs create_sample_dag
   + count_status RUNNING sample_refs create_sample_dag
   = length sample_refs)%nat /\
  (success_count (mkResult sample_refs 0 1) create_sample_dag
   + failed_count (mkResult sample_refs 0 1) create_sample_dag <= length sample_refs)%nat.
Proof.
  apply (status_counts_partition World unit (mkResult sample_refs 0 1) create_sample_dag).
  intros r Hr. simpl in Hr.
  repeat (apply elem_of_cons in Hr as [->|Hr]; [eexists; reflexivity|]). inversion Hr.
Defined.

(** [execute] on a list whose second step is RUNNING and waits for "a":
    a bound of a thousand iterations is hit. *)
Lemma execute_polls_forever_witness :
  execute time sleep 1000 [0; 1]%nat busy w0 = None.
Proof.
  apply (execute_polls_forever World unit time sleep [0; 1]%nat busy 1%nat
           (set_status RUNNING (step "b" "b" ["a"]))).
  - apply list_elem_of_further, list_elem_of_here.
  - reflexivity.
  - reflexivity.
  - discriminate.
Defined.

(** The level of [merge_results] in the sample DAG. *)
Lemma visualize_dag_levels_witness :
  exists l, snd (levels_loop create_sample_dag ∅ ∅) !! "merge_results" = Some l /\
    (["process_a"; "process_b"; "process_c"] = [] -> l = 0%Z) /\
    (["process_a"; "process_b"; "process_c"] <> [] ->
       exists dep, dep ∈ ["process_a"; "process_b"; "process_c"] /\
         snd (levels_loop create_sample_dag ∅ ∅) !! dep = Some (l - 1)%Z) /\
    (forall dep, dep ∈ ["process_a"; "process_b"; "process_c"] ->
       exists ld, snd (levels_loop create_sample_dag ∅ ∅) !! dep = Some ld /\
                  (0 <= ld < l)%Z).
Proof.
  apply (visualize_dag_levels World unit create_sample_dag
           (step "merge_results" "結果統合" ["process_a"; "process_b"; "process_c"])).
  - vm_compute. reflexivity.
  - do 4 apply list_elem_of_further. apply list_elem_of_here.
Defined.

(** What [visualize_dag] prints for the sample DAG. *)
Example visualize_sample_dag :
  visualize_dag create_sample_dag =
  [ ""; "DAG Structure:"; "----------------------------------------";
    "Level 0: fetch_data";
    "    ↓"; "Level 1: process_a, process_b, process_c";
    "    ↓"; "Level 2: merge_results";
    "    ↓"; "Level 3: generate_report" ].
Proof. vm_compute. reflexivity. Qed.

End DagDemo.
(** ** error_recovery.py *)

Module Recovery.

(** [class ErrorCategory(Enum)] *)
Inductive ErrorCategory := TRANSIENT | RECOVERABLE | PERMANENT | CATASTROPHIC.

(** [@dataclass class ResilienceConfig]; Python [int] is [Z], [float] is [Q]. *)
Record ResilienceConfig := mkConfig {
  max_retries : Z;
  base_delay : Q;
  max_delay : Q;
  exponential_base : Q;
  jitter_factor : Q;
  max_fallback_depth : Z;
  fallback_timeout : Q;
  failure_threshold : Z;
  recovery_timeout : Q;
  half_open_max_calls : Z
}.

(** The defaults of the dataclass. *)
Definition default_config : ResilienceConfig :=
  mkConfig 3 1 30 2 (1 # 10) 4 60 5 30 3.

(** [class CircuitState(Enum)] *)
Inductive CircuitState := CLOSED | OPEN | HALF_OPEN.

#[global] Instance CircuitState_eq_dec : EqDecision CircuitState.
Proof. solve_decision. Defined.

(** The attributes of a [CircuitBreaker] object. *)
Record CircuitBreaker := mkBreaker {
  name : string;
  config : ResilienceConfig;
  state : CircuitState;
  failure_count : Z;
  success_count : Z;
  last_failure_time : option Q;
  half_open_calls : Z
}.

(** [CircuitBreaker.__init__] *)
Definition new_breaker (n : string) (cfg : ResilienceConfig) : CircuitBreaker :=
  mkBreaker n cfg CLOSED 0 0 None 0.

(** Python's [l[:k]]: a negative [k] counts from the end of the list. *)
Definition slice_to {A} (k : Z) (l : list A) : list A :=
  if (0 <=? k)%Z then take (Z.to_nat k) l
  else take (Z.to_nat (Z.of_nat (length l) + k)) l.

Section Engine.

(** The world the operations act on; the values they return; the wall clock
    [time.time()] (reading it lets time pass); [asyncio.sleep];
    [random.random()]; and [asyncio.wait_for] applied to a coroutine. *)
Variable W : Type.
Variable V : Type.
Variable time : W -> Q * W.
Variable sleep : Q -> W -> W.
Variable random : W -> Q * W.

(** What an operation can hand back: [None], a plain value, or the
    coroutine object that a call of [CircuitBreaker.execute] creates. Such an
    object runs nothing until it is awaited; it is kept as the name of its
    breaker and the operation that is waiting in it. *)
#[warnings="-register-all"]
Inductive Value :=
| VNone
| VObj (v : V)
| VCoroutine (circuit : string) (waiting : W -> Outcome Value * W).

(** A Python callable without arguments: whether
    [asyncio.iscoroutinefunction] holds of it, and what calling it (and, for
    a coroutine function, awaiting the call) does. *)
Record Callable := mkCallable {
  is_coroutine_function : bool;
  call : W -> Outcome Value * W
}.

Variable wait_for : (W -> Outcome Value * W) -> Q -> W -> Outcome Value * W.

(** *** RetryStrategy *)

(** [random.uniform(a, b)] is [a + (b - a) * random()]. *)
Definition uniform (a b : Q) (w : W) : Q * W :=
  let '(u, w') := random w in ((a + (b - a) * u)%Q, w').

(** Python floats are kept as exact rationals, rounding left aside, but not
    their range: a power whose value rounds beyond the largest double, that
    is from [2^1024 - 2^970] on, raises OverflowError, and a zero base with
    a negative exponent raises ZeroDivisionError. Both are [Exception]s
    outside the classes of the module and are kept by their [str]. *)
Definition OverflowError : Exn := OtherException "(34, 'Numerical result out of range')".
Definition ZeroDivisionError : Exn :=
  OtherException "0.0 cannot be raised to a negative power".

Definition float_limit : Q := (inject_Z (2 ^ 1024 - 2 ^ 970))%Z.

(** [x ** n] for a float [x] and an int [n] *)
Definition float_pow (x : Q) (n : Z) : Outcome Q :=
  if Qeq_bool x 0 && (n <? 0)%Z then Raises ZeroDivisionError
  else if Qle_bool float_limit (Qabs (x ^ n)) then Raises OverflowError
  else Returns (x ^ n)%Q.

(** The [delay] of [calculate_delay], before the jitter is added. *)
Definition capped_delay (cfg : ResilienceConfig) (attempt : Z) : Outcome Q :=
  match float_pow (exponential_base cfg) attempt with
  | Returns p => Returns (Qmin (base_delay cfg * p)%Q (max_delay cfg))
  | Raises e => Raises e
  end.

(** [RetryStrategy.calculate_delay] *)
Definition calculate_delay (cfg : ResilienceConfig) (attempt : Z) (w : W)
  : Outcome Q * W :=
  match capped_delay cfg attempt with
  | Returns delay =>
    let '(jitter, w') := uniform 0 (delay * jitter_factor cfg)%Q w in
    (Returns (delay + jitter)%Q, w')
  | Raises e => (Raises e, w)
  end.

(** [RetryStrategy._execute]: a coroutine function is called and awaited, any
    other callable is run in the default executor and its result awaited;
    either way the callable runs once and its value is handed back as it is. *)
Definition _execute (operation : Callable) (w : W) : Outcome Value * W :=
  if is_coroutine_function operation then call operation w
  else call operation w.

(** The [except TransientError] handler of [execute_with_retry]: with
    attempts left it computes the delay, calls [on_retry] and sleeps. An
    exception of [calculate_delay] or of [on_retry] leaves the function. *)
Definition on_transient (cfg : ResilienceConfig)
    (on_retry : option (Z -> Exn -> W -> Outcome unit * W))
    (attempt : Z) (e : Exn) (w : W) : Outcome unit * W :=
  if (attempt <? max_retries cfg)%Z then
    match calculate_delay cfg attempt w with
    | (Raises e', w1) => (Raises e', w1)
    | (Returns delay, w1) =>
      match on_retry with
      | Some f =>
        match f (attempt + 1)%Z e w1 with
        | (Returns _, w2) => (Returns tt, sleep delay w2)
        | (Raises e', w2) => (Raises e', w2)
        end
      | None => (Returns tt, sleep delay w1)
      end
    end
  else (Returns tt, w).

(** The [for attempt in range(max_retries + 1)] loop: [n] iterations are
    left, the next one is number [attempt]. *)
Fixpoint retry_loop (cfg : ResilienceConfig) (operation : Callable)
    (on_retry : option (Z -> Exn -> W -> Outcome unit * W))
    (n : nat) (attempt : Z) (last_exception : option Exn) (w : W)
  : Outcome Value * W :=
  match n with
  | O =>
    (Raises (match last_exception with
             | Some e => e
             | None => OtherException "All retries exhausted"
             end), w)
  | S n' =>
    match _execute operation w with
    | (Returns v, w1) => (Returns v, w1)
    | (Raises (TransientError m), w1) =>
      match on_transient cfg on_retry attempt (TransientError m) w1 with
      | (Returns _, w2) =>
          retry_loop cfg operation on_retry n' (attempt + 1)%Z (Some (TransientError m)) w2
      | (Raises e', w2) => (Raises e', w2)
      end
    | (Raises (PermanentError m), w1) => (Raises (PermanentError m), w1)
    | (Raises (CatastrophicError m), w1) => (Raises (CatastrophicError m), w1)
    | (Raises e, w1) => (Raises e, w1)
    end
  end.

(** [RetryStrategy.execute_with_retry] *)
Definition execute_with_retry (cfg : ResilienceConfig) (operation : Callable)
    (on_retry : option (Z -> Exn -> W -> Outcome unit * W)) (w : W)
  : Outcome Value * W :=
  retry_loop cfg operation on_retry (Z.to_nat (max_retries cfg + 1)) 0%Z None w.

(** *** FallbackChain *)

(** [@dataclass class FallbackResult] *)
Record FallbackResult := mkFallbackResult {
  success : bool;
  result : Value;
  fallback_level : Z;
  error : option Exn
}.

(** The attributes of a [FallbackChain] object. *)
Record FallbackChain := mkChain {
  chain_config : ResilienceConfig;
  fallbacks : list Callable
}.

(** [FallbackChain.__init__], [add_fallback] *)
Definition new_chain (cfg : ResilienceConfig) : FallbackChain := mkChain cfg [].
Definition add_fallback (fallback : Callable) (chain : FallbackChain) : FallbackChain :=
  mkChain (chain_config chain) (fallbacks chain ++ [fallback]).

(** [operations = [primary] + self.fallbacks[: max_fallback_depth - 1]] *)
Definition operations (chain : FallbackChain) (primary : Callable) : list Callable :=
  primary :: slice_to (max_fallback_depth (chain_config chain) - 1) (fallbacks chain).

(** The [try] block of one level: a coroutine function runs under
    [asyncio.wait_for] with [fallback_timeout], any other callable is simply
    called. *)
Definition attempt (cfg : ResilienceConfig) (operation : Callable) (w : W)
  : Outcome Value * W :=
  if is_coroutine_function operation then
    wait_for (call operation) (fallback_timeout cfg) w
  else call operation w.

(** The [for level, operation in enumerate(operations)] loop; [last] is
    [len(operations) - 1]. *)
Fixpoint fallback_loop (cfg : ResilienceConfig) (ops : list Callable)
    (level last : Z) (w : W) : Outcome FallbackResult * W :=
  match ops with
  | [] =>
    (Returns (mkFallbackResult false VNone 0
                (Some (OtherException "No operations available"))), w)
  | operation :: rest =>
    match attempt cfg operation w with
    | (Returns v, w1) => (Returns (mkFallbackResult true v level None), w1)
    | (Raises (CatastrophicError m), w1) => (Raises (CatastrophicError m), w1)
    | (Raises e, w1) =>
      if (level =? last)%Z then
        (Returns (mkFallbackResult false VNone level (Some e)), w1)
      else fallback_loop cfg rest (level + 1)%Z last w1
    end
  end.

(** [FallbackChain.execute] *)
Definition chain_execute (chain : FallbackChain) (primary : Callable) (w : W)
  : Outcome FallbackResult * W :=
  let ops := operations chain primary in
  fallback_loop (chain_config chain) ops 0%Z (Z.of_nat (length ops) - 1)%Z w.

(** *** CircuitBreaker *)

Definition set_state (s : CircuitState) (cb : CircuitBreaker) : CircuitBreaker :=
  mkBreaker (name cb) (config cb) s (failure_count cb) (success_count cb)
            (last_failure_time cb) (half_open_calls cb).
Definition set_failure_count (n : Z) (cb : CircuitBreaker) : CircuitBreaker :=
  mkBreaker (name cb) (config cb) (state cb) n (success_count cb)
            (last_failure_time cb) (half_open_calls cb).
Definition set_success_count (n : Z) (cb : CircuitBreaker) : CircuitBreaker :=
  mkBreaker (name cb) (config cb) (state cb) (failure_count cb) n
            (last_failure_time cb) (half_open_calls cb).
Definition set_last_failure_time (t : option Q) (cb : CircuitBreaker) : CircuitBreaker :=
  mkBreaker (name cb) (config cb) (state cb) (failure_count cb) (success_count cb)
            t (half_open_calls cb).
Definition set_half_open_calls (n : Z) (cb : CircuitBreaker) : CircuitBreaker :=
  mkBreaker (name cb) (config cb) (state cb) (failure_count cb) (success_count cb)
            (last_failure_time cb) n.

(** [CircuitBreaker._should_attempt_recovery] *)
Definition _should_attempt_recovery (cb : CircuitBreaker) (w : W) : bool * W :=
  match last_failure_time cb with
  | None => (true, w)
  | Some t =>
    let '(now, w') := time w in
    (Qle_bool (recovery_timeout (config cb)) (now - t), w')
  end.

(** The property [CircuitBreaker.is_open]; reading it may move the breaker
    from OPEN to HALF_OPEN. *)
Definition is_open (cb : CircuitBreaker) (w : W) : bool * CircuitBreaker * W :=
  if bool_decide (state cb = OPEN) then
    let '(recover, w') := _should_attempt_recovery cb w in
    if recover then (false, set_half_open_calls 0 (set_state HALF_OPEN cb), w')
    else (true, cb, w')
  else (false, cb, w).

(** [CircuitBreaker.record_success] *)
Definition record_success (cb : CircuitBreaker) : CircuitBreaker :=
  let cb := set_failure_count 0 cb in
  if bool_decide (state cb = HALF_OPEN) then
    let cb := set_success_count (success_count cb + 1) cb in
    if (half_open_max_calls (config cb) <=? success_count cb)%Z then
      set_success_count 0 (set_state CLOSED cb)
    else cb
  else cb.

(** [CircuitBreaker.record_failure] *)
Definition record_failure (cb : CircuitBreaker) (w : W) : CircuitBreaker * W :=
  let cb := set_failure_count (failure_count cb + 1) cb in
  let '(now, w') := time w in
  let cb := set_last_failure_time (Some now) cb in
  if bool_decide (state cb = HALF_OPEN) then (set_state OPEN cb, w')
  else if (failure_threshold (config cb) <=? failure_count cb)%Z then (set_state OPEN cb, w')
  else (cb, w').

(** [CircuitBreaker.execute]: every exception of the operation goes through
    [except Exception], which records a failure and raises it again. *)
Definition breaker_execute (cb : CircuitBreaker) (operation : Callable) (w : W)
  : Outcome Value * CircuitBreaker * W :=
  let '(rejected, cb1, w1) := is_open cb w in
  if rejected then
    (Raises (TransientError ("Circuit " +:+ name cb +:+ " is open")), cb1, w1)
  else
    match (if is_coroutine_function operation then call operation w1
           else call operation w1) with
    | (Returns v, w2) => (Returns v, record_success cb1, w2)
    | (Raises e, w2) =>
      let '(cb2, w3) := record_failure cb1 w2 in
      (Raises e, cb2, w3)
    end.

(** *** ResilientExecutor *)

(** The attributes of a [ResilientExecutor] object; [retry_strategy] holds
    nothing but the configuration. *)
Record ResilientExecutor := mkExecutor {
  executor_config : ResilienceConfig;
  circuit_breakers : gmap string CircuitBreaker
}.

(** [ResilientExecutor.__init__] *)
Definition new_executor (cfg : option ResilienceConfig) : ResilientExecutor :=
  mkExecutor (default default_config cfg) ∅.

(** [ResilientExecutor.get_circuit_breaker] *)
Definition get_circuit_breaker (n : string) (ex : ResilientExecutor)
  : CircuitBreaker * ResilientExecutor :=
  match circuit_breakers ex !! n with
  | Some cb => (cb, ex)
  | None =>
    let cb := new_breaker n (executor_config ex) in
    (cb, mkExecutor (executor_config ex) (<[n := cb]> (circuit_breakers ex)))
  end.

(** Writing a breaker object back after it was mutated through a reference. *)
Definition put_breaker (n : string) (cb : CircuitBreaker) (ex : ResilientExecutor)
  : ResilientExecutor :=
  mkExecutor (executor_config ex) (<[n := cb]> (circuit_breakers ex)).

(** The chain that [execute] builds from the [fallbacks] list. *)
Definition chain_of (cfg : ResilienceConfig) (fbs : list Callable) : FallbackChain :=
  foldl (fun chain fb => add_fallback fb chain) (new_chain cfg) fbs.

(** [lambda: None] *)
Definition lambda_none : Callable := mkCallable false (fun w => (Returns VNone, w)).

(** [lambda: circuit.execute(operation)]. The lambda is a plain function:
    [asyncio.iscoroutinefunction] is false of it, so [_execute] has it called
    by the executor, and calling it calls the [async def] method
    [CircuitBreaker.execute], which only creates a coroutine object. The
    lambda returns that object; nothing awaits it, so neither the body of
    [CircuitBreaker.execute] nor the operation runs. *)
Definition lambda_circuit_execute (circuit_name : string) (operation : Callable)
  : Callable :=
  mkCallable false (fun w => (Returns (VCoroutine circuit_name (call operation)), w)).

(** [ResilientExecutor.execute]; a [fallbacks] argument of [None] or of the
    empty list is falsy. *)
Definition resilient_execute (ex : ResilientExecutor) (operation : Callable)
    (circuit_name : string) (fbs : option (list Callable)) (w : W)
  : Outcome Value * ResilientExecutor * W :=
  let '(circuit, ex1) := get_circuit_breaker circuit_name ex in
  let '(rejected, circuit', w1) := is_open circuit w in
  let ex2 := put_breaker circuit_name circuit' ex1 in
  let no_fallbacks :=
    Raises (TransientError ("Circuit " +:+ circuit_name +:+ " is open and no fallbacks")) in
  if rejected then
    match fbs with
    | Some (fb :: rest) =>
      match chain_execute (chain_of (executor_config ex) (fb :: rest)) lambda_none w1 with
      | (Returns res, w2) =>
        if success res then (Returns (result res), ex2, w2)
        else (no_fallbacks, ex2, w2)
      | (Raises e, w2) => (Raises e, ex2, w2)
      end
    | _ => (no_fallbacks, ex2, w1)
    end
  else
    match execute_with_retry (executor_config ex)
            (lambda_circuit_execute circuit_name operation) None w1 with
    | (Returns v, w2) => (Returns v, ex2, w2)
    | (Raises e, w2) =>
      match fbs with
      | Some (fb :: rest) =>
        match chain_execute (chain_of (executor_config ex) (fb :: rest)) fb w2 with
        | (Returns res, w3) =>
          if success res then (Returns (result res), ex2, w3)
          else (Raises e, ex2, w3)
        | (Raises e', w3) => (Raises e', ex2, w3)
        end
      | _ => (Raises e, ex2, w2)
      end
    end.

(** *** Vocabulary for the statements *)



(** The value of [delay] in [calculate_delay] when the power is in range. *)
Definition backoff (cfg : ResilienceConfig) (n : Z) : Q :=
  Qmin (base_delay cfg * exponential_base cfg ^ n)%Q (max_delay cfg).

(** A stretch of operations that are attempted one after the other, from
    world [w] to world [w'], and that each raise something other than a
    CatastrophicError. *)
Inductive failed_run (cfg : ResilienceConfig) : list Callable -> W -> W -> Prop :=
| failed_run_nil w : failed_run cfg [] w w
| failed_run_cons operation rest w e w1 w2 :
    attempt cfg operation w = (Raises e, w1) ->
    is_catastrophic e = false ->
    failed_run cfg rest w1 w2 ->
    failed_run cfg (operation :: rest) w w2.

(** What [asyncio.wait_for] guarantees for a positive timeout, told with a
    clock on the world: a coroutine that finishes within the timeout runs to
    its end and its outcome is handed back; one that would take longer is
    cancelled at the deadline (it is taken to accept the cancellation at
    once) and TimeoutError is raised. What the cancelled coroutine has done
    to the world by then is left open. *)
Definition wait_for_contract (clock : W -> Q) : Prop :=
  forall (c : W -> Outcome Value * W) (timeout : Q) (w : W),
    (0 < timeout)%Q ->
    ((clock (snd (c w)) - clock w <= timeout)%Q -> wait_for c timeout w = c w) /\
    (~ (clock (snd (c w)) - clock w <= timeout)%Q ->
       fst (wait_for c timeout w) = Raises TimeoutError /\
       (clock (snd (wait_for c timeout w)) == clock w + timeout)%Q).

(** Calls made one after the other through the same breaker, as the loop of
    the demo makes them; the outcomes are kept in order. *)
Fixpoint run_calls (ops : list Callable) (cb : CircuitBreaker) (w : W)
  : list (Outcome Value) * CircuitBreaker * W :=
  match ops with
  | [] => ([], cb, w)
  | operation :: rest =>
    let '(o, cb1, w1) := breaker_execute cb operation w in
    let '(os, cb2, w2) := run_calls rest cb1 w1 in
    (o :: os, cb2, w2)
  end.

Definition breaker_after (ops : list Callable) (cb : CircuitBreaker) (w : W)
  : CircuitBreaker :=
  snd (fst (run_calls ops cb w)).

(** How many of the calls of such a sequence are made before the breaker
    leaves HALF_OPEN for the first time. *)
Fixpoint half_open_episode (ops : list Callable) (cb : CircuitBreaker) (w : W) : nat :=
  match ops with
  | [] => 0
  | operation :: rest =>
    if bool_decide (state cb = HALF_OPEN) then
      let '(_, cb1, w1) := breaker_execute cb operation w in
      S (half_open_episode rest cb1 w1)
    else 0
  end.


(** What every call through a breaker named [n] with configuration [cfg]
    keeps true of it. *)
Definition breaker_inv (n : string) (cfg : ResilienceConfig) (cb : CircuitBreaker) : Prop :=
  name cb = n /\ config cb = cfg /\ half_open_calls cb = 0%Z /\
  (0 <= failure_count cb)%Z /\ (0 <= success_count cb)%Z /\
  (state cb = CLOSED -> success_count cb = 0%Z) /\
  (state cb = OPEN -> (1 <= failure_count cb)%Z) /\
  (state cb <> CLOSED -> is_Some (last_failure_time cb)).

(** The same with the two limits of the configuration. *)
Definition breaker_within_limits (cb : CircuitBreaker) : Prop :=
  (state cb = CLOSED -> (failure_count cb < failure_threshold (config cb))%Z) /\
  (success_count cb < half_open_max_calls (config cb))%Z.

(** *** The decorators *)

(** A decorated Python function at the arguments of the call under study:
    its name, whether it is an [async def], and what its body does. *)
Record Function := mkFunction {
  fn_name : string;
  is_async : bool;
  body : W -> Outcome Value * W
}.

(** The expression [func(...)]: a plain function runs its body;
    an [async def] function only creates a coroutine object, which is kept
    like the one of [CircuitBreaker.execute], under the function's name. *)
Definition call_expr (func : Function) : W -> Outcome Value * W :=
  if is_async func then fun w => (Returns (VCoroutine (fn_name func) (body func)), w)
  else body func.

(** The inner [async def operation()] of [with_retry]: a coroutine function
    that awaits [func] when it is one and calls it otherwise. *)
Definition retry_operation (func : Function) : Callable :=
  mkCallable true (fun w => if is_async func then body func w else body func w).

(** The wrapper that [with_retry(max_retries, base_delay, exceptions)(func)]
    returns; [exceptions] is not used by the code. *)
Definition with_retry (max_retries : Z) (base_delay : Q) (func : Function) (w : W)
  : Outcome Value * W :=
  let config := mkConfig max_retries base_delay 30 2 (1 # 10) 4 60 5 30 3 in
  execute_with_retry config (retry_operation func) None w.

(** [lambda f=fb: f(...)] and [lambda: func(...)] *)
Definition lambda_call (func : Function) : Callable := mkCallable false (call_expr func).

(** The wrapper that [with_fallback(fallbacks...)(func)] returns. *)
Definition with_fallback (fallback_funcs : list Function) (func : Function) (w : W)
  : Outcome Value * W :=
  let chain :=
    foldl (fun chain fb => add_fallback (lambda_call fb) chain)
          (new_chain default_config) fallback_funcs in
  match chain_execute chain (lambda_call func) w with
  | (Returns res, w') =>
    if success res then (Returns (result res), w')
    else (Raises (default (OtherException "All fallbacks failed") (error res)), w')
  | (Raises e, w') => (Raises e, w')
  end.
(** *** Backoff delays *)

Lemma backoff_le_max cfg n : (backoff cfg n <= max_delay cfg)%Q.
Proof. apply Q.le_min_r. Qed.

Lemma scaled_power_mono cfg (n m : Z) :
  (1 <= exponential_base cfg)%Q -> (0 <= base_delay cfg)%Q -> (n <= m)%Z ->
  (base_delay cfg * exponential_base cfg ^ n
   <= base_delay cfg * exponential_base cfg ^ m)%Q.
Proof.
  intros He Hb Hnm.
  rewrite (Qmult_comm _ (exponential_base cfg ^ n)), (Qmult_comm _ (exponential_base cfg ^ m)).
  apply Qmult_le_compat_r; [|exact Hb].
  apply Qpower_le_compat_l; assumption.
Qed.

Lemma backoff_mono cfg (n m : Z) :
  (1 <= exponential_base cfg)%Q -> (0 <= base_delay cfg)%Q -> (n <= m)%Z ->
  (backoff cfg n <= backoff cfg m)%Q.
Proof.
  intros He Hb Hnm. unfold backoff.
  apply Q.min_le_compat_r, scaled_power_mono; assumption.
Qed.

Lemma backoff_nonneg cfg n :
  (1 <= exponential_base cfg)%Q -> (0 <= base_delay cfg)%Q -> (0 <= max_delay cfg)%Q ->
  (0 <= backoff cfg n)%Q.
Proof.
  intros He Hb Hm. unfold backoff. apply Q.min_glb; [|exact Hm].
  apply Qmult_le_0_compat; [exact Hb|].
  apply Qpower_0_le. apply Qle_trans with 1%Q; [discriminate | exact He].
Qed.

Lemma uniform_range (b : Q) (w : W) :
  (0 <= b)%Q -> (0 <= fst (random w) <= 1)%Q ->
  (0 <= fst (uniform 0 b w) <= b)%Q.
Proof.
  intros Hb [Hu0 Hu1]. unfold uniform. destruct (random w) as [u w']. simpl in *.
  split.
  - assert (0 <= b * u)%Q by (apply Qmult_le_0_compat; assumption). lra.
  - assert (b * u <= b * 1)%Q.
    { rewrite (Qmult_comm b u), (Qmult_comm b 1). apply Qmult_le_compat_r; assumption. }
    lra.
Qed.

(** The two ways of a power whose base is at least 1. *)
Lemma float_pow_cases (x : Q) (n : Z) :
  (1 <= x)%Q ->
  ((x ^ n < float_limit)%Q -> float_pow x n = Returns (x ^ n)%Q) /\
  ((float_limit <= x ^ n)%Q -> float_pow x n = Raises OverflowError).
Proof.
  intros Hx. unfold float_pow.
  assert (Hz : Qeq_bool x 0 = false).
  { destruct (Qeq_bool x 0) eqn:E; [|reflexivity].
    apply Qeq_bool_eq in E. exfalso. lra. }
  assert (Hpos : (0 <= x ^ n)%Q).
  { apply Qpower_0_le. apply Qle_trans with 1%Q; [discriminate | exact Hx]. }
  rewrite Hz, (Qabs_pos _ Hpos). simpl. split.
  - intros Hlt. destruct (Qle_bool float_limit (x ^ n)) eqn:E; [|reflexivity].
    apply Qle_bool_imp_le in E. exfalso. exact (Qlt_not_le _ _ Hlt E).
  - intros Hge. rewrite (proj2 (Qle_bool_iff _ _) Hge). reflexivity.
Qed.

Lemma capped_delay_cases cfg n :
  (1 <= exponential_base cfg)%Q ->
  ((exponential_base cfg ^ n < float_limit)%Q ->
     capped_delay cfg n = Returns (backoff cfg n)) /\
  ((float_limit <= exponential_base cfg ^ n)%Q ->
     capped_delay cfg n = Raises OverflowError).
Proof.
  intros He. destruct (float_pow_cases (exponential_base cfg) n He) as [Hin Hout].
  unfold capped_delay. split; intros H.
  - rewrite (Hin H). reflexivity.
  - rewrite (Hout H). reflexivity.
Qed.

Lemma calculate_delay_value cfg n w :
  capped_delay cfg n = Returns (backoff cfg n) ->
  calculate_delay cfg n w =
    (Returns (backoff cfg n
              + fst (uniform 0 (backoff cfg n * jitter_factor cfg)%Q w))%Q,
     snd (random w)).
Proof.
  intros Hc. unfold calculate_delay. rewrite Hc. unfold uniform.
  destruct (random w) as [u w']. reflexivity.
Qed.

(** C8 (amended). With [exponential_base >= 1] and, in addition,
    [base_delay >= 0], [max_delay >= 0] and [jitter_factor >= 0]. As long as
    [exponential_base^n] is in the range of a float, the value of
    [calculate_delay] for attempt [n] is
    [delay = min(base_delay * exponential_base^n, max_delay)] plus a jitter
    [uniform(0, delay * jitter_factor)]; the jitter lies in
    [[0, delay * jitter_factor]] for every draw of [random()] in [[0, 1]];
    the delay never exceeds [max_delay], does not decrease towards a later
    attempt whose power is in range too, and is [max_delay] there once the
    cap is reached. When [exponential_base^n] is out of range,
    [calculate_delay] raises OverflowError without drawing a jitter, and so
    it does for every later attempt. *)
Theorem calculate_delay_backoff (cfg : ResilienceConfig) (n : Z) (w : W) :
  (1 <= exponential_base cfg)%Q ->
  (0 <= base_delay cfg)%Q -> (0 <= max_delay cfg)%Q -> (0 <= jitter_factor cfg)%Q ->
  (0 <= fst (random w) <= 1)%Q ->
  let delay := Qmin (base_delay cfg * exponential_base cfg ^ n)%Q (max_delay cfg) in
  let jitter := fst (uniform 0 (delay * jitter_factor cfg)%Q w) in
  ((exponential_base cfg ^ n < float_limit)%Q ->
     capped_delay cfg n = Returns delay /\
     calculate_delay cfg n w = (Returns (delay + jitter)%Q, snd (random w)) /\
     (0 <= jitter <= delay * jitter_factor cfg)%Q /\
     (delay <= max_delay cfg)%Q /\
     (forall m, (n <= m)%Z -> (exponential_base cfg ^ m < float_limit)%Q ->
        exists delay',
          capped_delay cfg m = Returns delay' /\
          (delay <= delay' <= max_delay cfg)%Q /\
          ((max_delay cfg <= base_delay cfg * exponential_base cfg ^ n)%Q ->
           (delay' == max_delay cfg)%Q)))
  /\ ((float_limit <= exponential_base cfg ^ n)%Q ->
       calculate_delay cfg n w = (Raises OverflowError, w) /\
       forall m, (n <= m)%Z -> capped_delay cfg m = Raises OverflowError).
Proof.
  intros He Hb Hm Hj Hu delay jitter.
  change delay with (backoff cfg n) in *. clear delay. split.
  - intros Hin.
    pose proof (proj1 (capped_delay_cases cfg n He) Hin) as Hc.
    split; [exact Hc|]. split; [apply calculate_delay_value, Hc|].
    split.
    { apply uniform_range; [|exact Hu].
      apply Qmult_le_0_compat; [|exact Hj]. apply backoff_nonneg; assumption. }
    split; [apply backoff_le_max|].
    intros m Hnm Hm_in. exists (backoff cfg m).
    split; [exact (proj1 (capped_delay_cases cfg m He) Hm_in)|].
    split; [split; [apply backoff_mono; assumption | apply backoff_le_max]|].
    intros Hcap. unfold backoff. apply Q.min_r.
    apply Qle_trans with (1 := Hcap). apply scaled_power_mono; assumption.
  - intros Hout.
    assert (Hlater : forall m, (n <= m)%Z -> capped_delay cfg m = Raises OverflowError).
    { intros m Hnm. apply (capped_delay_cases cfg m He).
      apply Qle_trans with (1 := Hout). apply Qpower_le_compat_l; assumption. }
    split; [|exact Hlater].
    unfold calculate_delay. rewrite (Hlater n ltac:(lia)). reflexivity.
Qed.

(** *** Retry *)



Lemma retry_loop_returns cfg operation on_retry n a last w v w1 :
  _execute operation w = (Returns v, w1) ->
  retry_loop cfg operation on_retry (S n) a last w = (Returns v, w1).
Proof. intros H. simpl. rewrite H. reflexivity. Qed.

Lemma retry_loop_raises cfg operation on_retry n a last w e w1 :
  _execute operation w = (Raises e, w1) -> is_transient e = false ->
  retry_loop cfg operation on_retry (S n) a last w = (Raises e, w1).
Proof. intros H He. simpl. rewrite H. destruct e; try reflexivity. discriminate. Qed.









(** *** Fallback chain *)

Lemma fallback_loop_failed cfg ops1 w w1 :
  failed_run cfg ops1 w w1 ->
  forall rest level last,
    (level + Z.of_nat (length ops1) <= last)%Z ->
    fallback_loop cfg (ops1 ++ rest) level last w =
    fallback_loop cfg rest (level + Z.of_nat (length ops1))%Z last w1.
Proof.
  induction 1 as [w | operation ops w e w1 w2 Ha He _ IH]; intros rest level last Hlast.
  - simpl. rewrite Z.add_0_r. reflexivity.
  - simpl in *. rewrite Ha.
    assert (Hne : (level =? last)%Z = false) by (apply Z.eqb_neq; lia).
    destruct e; try discriminate; rewrite Hne, IH by lia; f_equal; lia.
Qed.

Lemma fallback_loop_count cfg (count : W -> nat) ops :
  (forall operation w, operation ∈ ops ->
     (count (snd (attempt cfg operation w)) <= S (count w))%nat) ->
  forall level last w,
    (count (snd (fallback_loop cfg ops level last w)) <= count w + length ops)%nat.
Proof.
  induction ops as [|operation rest IH]; intros Hop level last w.
  - simpl. lia.
  - simpl. pose proof (Hop operation w (list_elem_of_here _ _)) as H1.
    assert (Hrest : forall op' w', op' ∈ rest ->
              (count (snd (attempt cfg op' w')) <= S (count w'))%nat).
    { intros op' w' Hin. apply Hop, list_elem_of_further, Hin. }
    destruct (attempt cfg operation w) as [[v|e] w1]; simpl in *; [lia|].
    destruct e; simpl; try lia;
      (destruct (level =? last)%Z; simpl;
       [lia | specialize (IH Hrest (level + 1)%Z last w1); lia]).
Qed.

Lemma operations_positive_depth chain primary :
  (1 <= max_fallback_depth (chain_config chain))%Z ->
  operations chain primary =
    primary :: take (Z.to_nat (max_fallback_depth (chain_config chain) - 1)) (fallbacks chain)
  /\ (length (operations chain primary) <= Z.to_nat (max_fallback_depth (chain_config chain)))%nat.
Proof.
  intros Hd. unfold operations, slice_to.
  assert (H0 : (0 <=? max_fallback_depth (chain_config chain) - 1)%Z = true)
    by (apply Z.leb_le; lia).
  rewrite H0. split; [reflexivity|]. simpl. rewrite length_take. lia.
Qed.

Lemma chain_execute_prefix chain primary ops1 rest w w1 :
  operations chain primary = ops1 ++ rest -> rest <> [] ->
  failed_run (chain_config chain) ops1 w w1 ->
  chain_execute chain primary w =
    fallback_loop (chain_config chain) rest (Z.of_nat (length ops1))
      (Z.of_nat (length (operations chain primary)) - 1)%Z w1.
Proof.
  intros Hops Hne Hrun. unfold chain_execute. rewrite Hops at 1.
  rewrite (fallback_loop_failed _ ops1 w w1 Hrun); [reflexivity|].
  rewrite Hops, length_app. destruct rest; [congruence|]. simpl. lia.
Qed.

Lemma chain_execute_catastrophic chain primary ops1 operation ops2 w w1 m w2 :
  operations chain primary = ops1 ++ operation :: ops2 ->
  failed_run (chain_config chain) ops1 w w1 ->
  attempt (chain_config chain) operation w1 = (Raises (CatastrophicError m), w2) ->
  chain_execute chain primary w = (Raises (CatastrophicError m), w2).
Proof.
  intros Hops Hrun Ha.
  rewrite (chain_execute_prefix chain primary ops1 (operation :: ops2) w w1 Hops
             ltac:(discriminate) Hrun).
  simpl. rewrite Ha. reflexivity.
Qed.

Lemma attempt_coroutine (clock : W -> Q) cfg operation w :
  wait_for_contract clock -> (0 < fallback_timeout cfg)%Q ->
  is_coroutine_function operation = true ->
  (clock (snd (attempt cfg operation w)) - clock w <= fallback_timeout cfg)%Q /\
  ((clock (snd (call operation w)) - clock w <= fallback_timeout cfg)%Q ->
     attempt cfg operation w = call operation w) /\
  (~ (clock (snd (call operation w)) - clock w <= fallback_timeout cfg)%Q ->
     fst (attempt cfg operation w) = Raises TimeoutError).
Proof.
  intros Hwf Ht Hco. unfold attempt. rewrite Hco.
  destruct (Hwf (call operation) (fallback_timeout cfg) w Ht) as [Hin Hout].
  destruct (Qlt_le_dec (fallback_timeout cfg) (clock (snd (call operation w)) - clock w))
    as [Hlate|Hok].
  - assert (Hnot : ~ (clock (snd (call operation w)) - clock w <= fallback_timeout cfg)%Q)
      by (apply Qlt_not_le, Hlate).
    destruct (Hout Hnot) as [Ho Hc].
    split; [rewrite Hc; lra|]. split; [intros H; contradiction | intros _; exact Ho].
  - rewrite (Hin Hok). split; [exact Hok|].
    split; [reflexivity | intros H; contradiction].
Qed.

(** C7 (amended). When [max_fallback_depth >= 1], [FallbackChain.execute]
    goes through the primary and the first [max_fallback_depth - 1]
    fallbacks, in this order, so it makes at most [max_fallback_depth]
    attempts (a measure of the world that an attempt raises by at most one
    has grown by at most that much). For every depth: the primary is the
    first operation; the first attempt that returns ends the chain with its
    value and its level; a CatastrophicError of an attempt leaves the chain
    at once; and when the last operation fails too, the result is a failure
    that carries this last error. A callable that is not a coroutine
    function is just called, so nothing bounds it. An attempt on a coroutine
    function runs under [asyncio.wait_for] with [fallback_timeout]: for a
    positive timeout and a [wait_for] that keeps its contract, the attempt
    never takes longer than [fallback_timeout] on the clock, it is the
    operation itself when that finishes in time, and otherwise it raises
    TimeoutError, which sends the chain on to the next operation like any
    other failure. *)
Theorem chain_execute_contract (chain : FallbackChain) (primary : Callable) :
  let cfg := chain_config chain in
  let ops := operations chain primary in
  let last := (Z.of_nat (length ops) - 1)%Z in
  ((1 <= max_fallback_depth cfg)%Z ->
     ops = primary :: take (Z.to_nat (max_fallback_depth cfg - 1)) (fallbacks chain) /\
     forall (count : W -> nat) w,
       (forall operation w0, operation ∈ ops ->
          (count (snd (attempt cfg operation w0)) <= S (count w0))%nat) ->
       (count (snd (chain_execute chain primary w))
        <= count w + Z.to_nat (max_fallback_depth cfg))%nat)
  /\ (forall ops1 operation ops2 w w1 v w2,
        ops = ops1 ++ operation :: ops2 ->
        failed_run cfg ops1 w w1 ->
        attempt cfg operation w1 = (Returns v, w2) ->
        chain_execute chain primary w =
          (Returns (mkFallbackResult true v (Z.of_nat (length ops1)) None), w2))
  /\ (forall ops1 operation ops2 w w1 m w2,
        ops = ops1 ++ operation :: ops2 ->
        failed_run cfg ops1 w w1 ->
        attempt cfg operation w1 = (Raises (CatastrophicError m), w2) ->
        chain_execute chain primary w = (Raises (CatastrophicError m), w2))
  /\ (forall operation w,
        is_coroutine_function operation = false ->
        attempt cfg operation w = call operation w)
  /\ (forall (clock : W -> Q) operation w,
        wait_for_contract clock -> (0 < fallback_timeout cfg)%Q ->
        is_coroutine_function operation = true ->
        (clock (snd (attempt cfg operation w)) - clock w <= fallback_timeout cfg)%Q /\
        ((clock (snd (call operation w)) - clock w <= fallback_timeout cfg)%Q ->
           attempt cfg operation w = call operation w) /\
        (~ (clock (snd (call operation w)) - clock w <= fallback_timeout cfg)%Q ->
           fst (attempt cfg operation w) = Raises TimeoutError))
  /\ (forall (clock : W -> Q) ops1 operation next ops2 w w1,
        wait_for_contract clock -> (0 < fallback_timeout cfg)%Q ->
        ops = ops1 ++ operation :: next :: ops2 ->
        failed_run cfg ops1 w w1 ->
        is_coroutine_function operation = true ->
        ~ (clock (snd (call operation w1)) - clock w1 <= fallback_timeout cfg)%Q ->
        chain_execute chain primary w =
          fallback_loop cfg (next :: ops2) (Z.of_nat (length ops1) + 1)%Z last
            (snd (attempt cfg operation w1)))
  /\ (forall ops1 operation w w1 e w2,
        ops = ops1 ++ [operation] ->
        failed_run cfg ops1 w w1 ->
        attempt cfg operation w1 = (Raises e, w2) ->
        is_catastrophic e = false ->
        chain_execute chain primary w =
          (Returns (mkFallbackResult false VNone (Z.of_nat (length ops1)) (Some e)), w2))
  /\ (exists rest, ops = primary :: rest).
Proof.
  intros cfg ops last.
  split; [|split; [|split; [|split; [|split; [|split; [|split]]]]]].
  - intros Hd. destruct (operations_positive_depth chain primary Hd) as [Hops Hlen].
    split; [exact Hops|]. intros count w Hop. unfold chain_execute.
    pose proof (fallback_loop_count cfg count ops Hop 0%Z last w) as Hc.
    fold cfg. fold ops. fold last. fold ops in Hlen. fold cfg in Hlen. lia.
  - intros ops1 operation ops2 w w1 v w2 Hops Hrun Ha.
    rewrite (chain_execute_prefix chain primary ops1 (operation :: ops2) w w1 Hops
               ltac:(discriminate) Hrun).
    simpl. fold cfg. rewrite Ha. reflexivity.
  - intros ops1 operation ops2 w w1 m w2. apply chain_execute_catastrophic.
  - intros operation w Hco. unfold attempt. rewrite Hco. reflexivity.
  - intros clock operation w. apply attempt_coroutine.
  - intros clock ops1 operation next ops2 w w1 Hwf Ht Hops Hrun Hco Hlate.
    destruct (attempt_coroutine clock cfg operation w1 Hwf Ht Hco) as (_ & _ & Hto).
    specialize (Hto Hlate).
    rewrite (chain_execute_prefix chain primary ops1 (operation :: next :: ops2) w w1 Hops
               ltac:(discriminate) Hrun).
    fold cfg. fold ops. fold last.
    simpl. destruct (attempt cfg operation w1) as [o w2]. simpl in Hto. subst o.
    assert (Hne : (Z.of_nat (length ops1) =? last)%Z = false).
    { apply Z.eqb_neq. subst last. fold ops in Hops. rewrite Hops, length_app. simpl. lia. }
    rewrite Hne. reflexivity.
  - intros ops1 operation w w1 e w2 Hops Hrun Ha He.
    rewrite (chain_execute_prefix chain primary ops1 [operation] w w1 Hops
               ltac:(discriminate) Hrun).
    fold cfg. fold ops. fold last.
    simpl. rewrite Ha.
    assert (Heq : (Z.of_nat (length ops1) =? last)%Z = true).
    { apply Z.eqb_eq. subst last. fold ops in Hops. rewrite Hops, length_app. simpl. lia. }
    destruct e; try discriminate; rewrite Heq; reflexivity.
  - eexists. reflexivity.
Qed.
(** *** Circuit breaker *)

Lemma is_open_not_open cb w : state cb <> OPEN -> is_open cb w = (false, cb, w).
Proof. intros H. unfold is_open. rewrite bool_decide_eq_false_2 by exact H. reflexivity. Qed.

Lemma is_open_within_timeout cb w t :
  state cb = OPEN -> last_failure_time cb = Some t ->
  ~ (recovery_timeout (config cb) <= fst (time w) - t)%Q ->
  is_open cb w = (true, cb, snd (time w)).
Proof.
  intros Hs Ht Hlt. unfold is_open, _should_attempt_recovery.
  rewrite bool_decide_eq_true_2 by exact Hs. rewrite Ht.
  destruct (time w) as [now w']. simpl in *.
  destruct (Qle_bool (recovery_timeout (config cb)) (now - t)) eqn:E; [|reflexivity].
  exfalso. apply Hlt, Qle_bool_iff, E.
Qed.

Lemma is_open_after_timeout cb w t :
  state cb = OPEN -> last_failure_time cb = Some t ->
  (recovery_timeout (config cb) <= fst (time w) - t)%Q ->
  is_open cb w = (false, set_half_open_calls 0 (set_state HALF_OPEN cb), snd (time w)).
Proof.
  intros Hs Ht Hle. unfold is_open, _should_attempt_recovery.
  rewrite bool_decide_eq_true_2 by exact Hs. rewrite Ht.
  destruct (time w) as [now w']. simpl in *.
  apply Qle_bool_iff in Hle. rewrite Hle. reflexivity.
Qed.

Lemma breaker_execute_rejected cb operation w cb1 w1 :
  is_open cb w = (true, cb1, w1) ->
  breaker_execute cb operation w =
    (Raises (TransientError ("Circuit " +:+ name cb +:+ " is open")), cb1, w1).
Proof. intros H. unfold breaker_execute. rewrite H. reflexivity. Qed.

Lemma breaker_execute_returns cb operation w cb1 w1 v w2 :
  is_open cb w = (false, cb1, w1) -> call operation w1 = (Returns v, w2) ->
  breaker_execute cb operation w = (Returns v, record_success cb1, w2).
Proof.
  intros H Hc. unfold breaker_execute. rewrite H.
  destruct (is_coroutine_function operation); rewrite Hc; reflexivity.
Qed.

Lemma breaker_execute_raises cb operation w cb1 w1 e w2 :
  is_open cb w = (false, cb1, w1) -> call operation w1 = (Raises e, w2) ->
  breaker_execute cb operation w =
    (Raises e, fst (record_failure cb1 w2), snd (record_failure cb1 w2)).
Proof.
  intros H Hc. unfold breaker_execute. rewrite H.
  destruct (is_coroutine_function operation); rewrite Hc;
    destruct (record_failure cb1 w2); reflexivity.
Qed.

Lemma record_failure_fields cb w :
  let cb' := fst (record_failure cb w) in
  failure_count cb' = (failure_count cb + 1)%Z /\
  success_count cb' = success_count cb /\
  last_failure_time cb' = Some (fst (time w)) /\
  half_open_calls cb' = half_open_calls cb /\
  config cb' = config cb /\
  state cb' = (if bool_decide (state cb = HALF_OPEN) then OPEN
               else if (failure_threshold (config cb) <=? failure_count cb + 1)%Z then OPEN
               else state cb).
Proof.
  unfold record_failure. destruct (time w) as [now w']. simpl.
  destruct (bool_decide (state cb = HALF_OPEN)); simpl; [repeat split|].
  destruct (failure_threshold (config cb) <=? failure_count cb + 1)%Z; simpl; repeat split.
Qed.

Lemma record_success_fields cb :
  let cb' := record_success cb in
  failure_count cb' = 0%Z /\
  last_failure_time cb' = last_failure_time cb /\
  half_open_calls cb' = half_open_calls cb /\
  config cb' = config cb /\
  (state cb <> HALF_OPEN -> state cb' = state cb /\ success_count cb' = success_count cb) /\
  (state cb = HALF_OPEN ->
     if (half_open_max_calls (config cb) <=? success_count cb + 1)%Z
     then state cb' = CLOSED /\ success_count cb' = 0%Z
     else state cb' = HALF_OPEN /\ success_count cb' = (success_count cb + 1)%Z).
Proof.
  unfold record_success. simpl.
  destruct (bool_decide (state cb = HALF_OPEN)) eqn:E; simpl.
  - apply bool_decide_eq_true_1 in E.
    destruct (half_open_max_calls (config cb) <=? success_count cb + 1)%Z eqn:Hm; simpl;
      repeat split; try congruence; intros _; rewrite Hm; split; (reflexivity || exact E).
  - apply bool_decide_eq_false_1 in E. repeat split; congruence.
Qed.

(** Consecutive failures of a CLOSED breaker. *)
Lemma closed_failures ops :
  forall cb w,
    state cb = CLOSED ->
    (forall operation w0, operation ∈ ops -> raised (fst (call operation w0)) = true) ->
    let cb' := breaker_after ops cb w in
    ((failure_count cb + Z.of_nat (length ops) < failure_threshold (config cb))%Z ->
       state cb' = CLOSED /\
       failure_count cb' = (failure_count cb + Z.of_nat (length ops))%Z)
    /\ ((1 <= length ops)%nat ->
        (failure_count cb + Z.of_nat (length ops) = failure_threshold (config cb))%Z ->
        state cb' = OPEN).
Proof.
  induction ops as [|operation rest IH]; intros cb w Hs Hfail; unfold breaker_after.
  - simpl. split; [intros _; split; [exact Hs | lia] | intros; lia].
  - simpl.
    pose proof (Hfail operation w (list_elem_of_here _ _)) as Hr.
    destruct (call operation w) as [[v|e] w2] eqn:Hc; [discriminate|].
    rewrite (breaker_execute_raises cb operation w cb w e w2
               (is_open_not_open cb w ltac:(rewrite Hs; discriminate)) Hc).
    destruct (record_failure_fields cb w2) as (Hfc & _ & _ & _ & Hcfg & Hst).
    set (cb1 := fst (record_failure cb w2)) in *.
    set (w3 := snd (record_failure cb w2)).
    rewrite bool_decide_eq_false_2 in Hst by (rewrite Hs; discriminate).
    assert (Hrest : forall op' w0, op' ∈ rest -> raised (fst (call op' w0)) = true).
    { intros op' w0 Hin. apply Hfail, list_elem_of_further, Hin. }
    specialize (IH cb1 w3). unfold breaker_after in IH.
    destruct (run_calls rest cb1 w3) as [[os cb2] w4] eqn:Hrun. simpl in *.
    split.
    + intros Hlt.
      assert (Hc1 : state cb1 = CLOSED).
      { rewrite Hst. destruct (Z.leb_spec (failure_threshold (config cb)) (failure_count cb + 1));
          [lia | exact Hs]. }
      destruct (IH Hc1 Hrest) as [IH1 _]. rewrite Hfc, Hcfg in IH1.
      destruct IH1 as [IHs IHc]; [lia|]. split; [exact IHs | lia].
    + intros _ Heq. destruct rest as [|op' rest'].
      * simpl in *. injection Hrun as _ <- _.
        rewrite Hst. destruct (Z.leb_spec (failure_threshold (config cb)) (failure_count cb + 1));
          [reflexivity | lia].
      * assert (Hc1 : state cb1 = CLOSED).
        { rewrite Hst. simpl in Heq.
          destruct (Z.leb_spec (failure_threshold (config cb)) (failure_count cb + 1));
            [lia | exact Hs]. }
        destruct (IH Hc1 Hrest) as [_ IH2]. rewrite Hfc, Hcfg in IH2.
        apply IH2; simpl in *; lia.
Qed.

(** Successes of a CLOSED breaker leave it CLOSED. *)
Lemma closed_successes ops :
  forall cb w,
    state cb = CLOSED ->
    (forall operation w0, operation ∈ ops -> raised (fst (call operation w0)) = false) ->
    let cb' := breaker_after ops cb w in
    state cb' = CLOSED /\ success_count cb' = success_count cb /\
    half_open_calls cb' = half_open_calls cb /\
    ((1 <= length ops)%nat -> failure_count cb' = 0%Z).
Proof.
  induction ops as [|operation rest IH]; intros cb w Hs Hok; unfold breaker_after.
  - simpl. repeat split; [exact Hs | lia].
  - simpl.
    pose proof (Hok operation w (list_elem_of_here _ _)) as Hr.
    destruct (call operation w) as [[v|e] w2] eqn:Hc; [|discriminate].
    rewrite (breaker_execute_returns cb operation w cb w v w2
               (is_open_not_open cb w ltac:(rewrite Hs; discriminate)) Hc).
    destruct (record_success_fields cb) as (Hfc & _ & Hhc & _ & Hne & _).
    destruct Hne as [Hst Hsc]; [rewrite Hs; discriminate|].
    assert (Hrest : forall op' w0, op' ∈ rest -> raised (fst (call op' w0)) = false).
    { intros op' w0 Hin. apply Hok, list_elem_of_further, Hin. }
    specialize (IH (record_success cb) w2 ltac:(rewrite Hst; exact Hs) Hrest).
    unfold breaker_after in IH.
    destruct (run_calls rest (record_success cb) w2) as [[os cb2] w4] eqn:Hrun. simpl in *.
    destruct IH as (IHs & IHsc & IHhc & IHfc).
    split; [exact IHs|]. split; [congruence|]. split; [congruence|].
    intros _. destruct rest as [|op' rest'].
    + simpl in Hrun. injection Hrun as _ <- _. exact Hfc.
    + apply IHfc. simpl. lia.
Qed.

(** Successes of a HALF_OPEN breaker close it once the success counter
    reaches [half_open_max_calls]. *)
Lemma half_open_successes ops :
  forall cb w,
    state cb = HALF_OPEN ->
    (forall operation w0, operation ∈ ops -> raised (fst (call operation w0)) = false) ->
    (1 <= length ops)%nat ->
    (half_open_max_calls (config cb) <= success_count cb + Z.of_nat (length ops))%Z ->
    let cb' := breaker_after ops cb w in
    state cb' = CLOSED /\ failure_count cb' = 0%Z /\ success_count cb' = 0%Z /\
    half_open_calls cb' = half_open_calls cb.
Proof.
  induction ops as [|operation rest IH]; intros cb w Hs Hok Hlen Hmax; unfold breaker_after.
  - simpl in Hlen. lia.
  - simpl.
    pose proof (Hok operation w (list_elem_of_here _ _)) as Hr.
    destruct (call operation w) as [[v|e] w2] eqn:Hc; [|discriminate].
    rewrite (breaker_execute_returns cb operation w cb w v w2
               (is_open_not_open cb w ltac:(rewrite Hs; discriminate)) Hc).
    destruct (record_success_fields cb) as (Hfc & _ & Hhc & Hcfg & _ & Hho).
    specialize (Hho Hs).
    assert (Hrest : forall op' w0, op' ∈ rest -> raised (fst (call op' w0)) = false).
    { intros op' w0 Hin. apply Hok, list_elem_of_further, Hin. }
    destruct (Z.leb_spec (half_open_max_calls (config cb)) (success_count cb + 1)) as [Hge|Hlt].
    + destruct Hho as [Hst Hsc].
      pose proof (closed_successes rest (record_success cb) w2 Hst Hrest) as Hcl.
      unfold breaker_after in Hcl.
      destruct (run_calls rest (record_success cb) w2) as [[os cb2] w4] eqn:Hrun. simpl in *.
      destruct Hcl as (Hcs & Hcsc & Hchc & Hcfc).
      split; [exact Hcs|]. split; [|split; congruence].
      destruct rest as [|op' rest'].
      * simpl in Hrun. injection Hrun as _ <- _. exact Hfc.
      * apply Hcfc. simpl. lia.
    + destruct Hho as [Hst Hsc].
      simpl in Hmax.
      specialize (IH (record_success cb) w2 Hst Hrest).
      unfold breaker_after in IH.
      destruct (run_calls rest (record_success cb) w2) as [[os cb2] w4] eqn:Hrun. simpl in *.
      rewrite <- Hhc.
      apply IH; [destruct rest; simpl in *; lia | rewrite Hcfg, Hsc; lia].
Qed.

Lemma half_open_episode_over ops cb w :
  state cb <> HALF_OPEN -> half_open_episode ops cb w = 0%nat.
Proof.
  intros H. destruct ops; [reflexivity|]. simpl.
  rewrite bool_decide_eq_false_2 by exact H. reflexivity.
Qed.

(** Made one after the other, the calls that a HALF_OPEN breaker lets
    through before it closes or opens again are bounded by what the success
    counter still lacks. *)
Lemma half_open_episode_bound ops :
  forall cb w,
    (half_open_episode ops cb w
     <= Z.to_nat (Z.max 1 (half_open_max_calls (config cb) - success_count cb)))%nat.
Proof.
  induction ops as [|operation rest IH]; intros cb w; [simpl; lia|].
  simpl. destruct (bool_decide (state cb = HALF_OPEN)) eqn:E; [|lia].
  apply bool_decide_eq_true_1 in E.
  assert (Hio : is_open cb w = (false, cb, w))
    by (apply is_open_not_open; rewrite E; discriminate).
  destruct (call operation w) as [[v|e] w2] eqn:Hc.
  - rewrite (breaker_execute_returns cb operation w cb w v w2 Hio Hc).
    destruct (record_success_fields cb) as (_ & _ & _ & Hcfg & _ & Hho).
    specialize (Hho E).
    destruct (Z.leb_spec (half_open_max_calls (config cb)) (success_count cb + 1)) as [Hge|Hlt];
      destruct Hho as [Hst Hsc].
    + rewrite half_open_episode_over by (rewrite Hst; discriminate). lia.
    + specialize (IH (record_success cb) w2). rewrite Hcfg, Hsc in IH. lia.
  - rewrite (breaker_execute_raises cb operation w cb w e w2 Hio Hc).
    destruct (record_failure_fields cb w2) as (_ & _ & _ & _ & _ & Hst).
    rewrite bool_decide_eq_true_2 in Hst by exact E.
    rewrite half_open_episode_over by (rewrite Hst; discriminate). lia.
Qed.

(** The transitions of the breaker, for calls made one after the other and
    with [failure_threshold >= 1] and [half_open_max_calls >= 1]:
    a CLOSED breaker whose failure count is 0 stays CLOSED through fewer than
    [failure_threshold] consecutive failures and is OPEN after exactly that
    many; a call on an OPEN breaker within [recovery_timeout] of the last
    failure raises a TransientError and leaves the breaker and, but for the
    clock read, the world as they were, so the operation has not run; once
    [recovery_timeout] has passed, the next call finds the breaker HALF_OPEN
    with [half_open_calls = 0] and goes through; a HALF_OPEN breaker is left
    after at most [half_open_max_calls] such calls, is CLOSED with both
    counters at 0 after [half_open_max_calls] consecutive successes, and is
    OPEN after a single failure; a success on a CLOSED breaker sets
    [failure_count] to 0. *)
Lemma breaker_transitions :
  (forall ops cb w,
     state cb = CLOSED -> failure_count cb = 0%Z ->
     (forall operation w0, operation ∈ ops -> raised (fst (call operation w0)) = true) ->
     ((Z.of_nat (length ops) < failure_threshold (config cb))%Z ->
        state (breaker_after ops cb w) = CLOSED) /\
     ((1 <= failure_threshold (config cb))%Z ->
      Z.of_nat (length ops) = failure_threshold (config cb) ->
        state (breaker_after ops cb w) = OPEN))
  /\ (forall cb operation w t,
        state cb = OPEN -> last_failure_time cb = Some t ->
        ~ (recovery_timeout (config cb) <= fst (time w) - t)%Q ->
        breaker_execute cb operation w =
          (Raises (TransientError ("Circuit " +:+ name cb +:+ " is open")),
           cb, snd (time w)))
  /\ (forall cb operation w t,
        state cb = OPEN -> last_failure_time cb = Some t ->
        (recovery_timeout (config cb) <= fst (time w) - t)%Q ->
        let probing := set_half_open_calls 0 (set_state HALF_OPEN cb) in
        is_open cb w = (false, probing, snd (time w)) /\
        breaker_execute cb operation w = breaker_execute probing operation (snd (time w)))
  /\ (forall ops cb w,
        state cb = HALF_OPEN -> (0 <= success_count cb)%Z ->
        (1 <= half_open_max_calls (config cb))%Z ->
        (half_open_episode ops cb w <= Z.to_nat (half_open_max_calls (config cb)))%nat)
  /\ (forall ops cb w,
        state cb = HALF_OPEN -> (0 <= success_count cb)%Z ->
        (1 <= half_open_max_calls (config cb))%Z ->
        Z.of_nat (length ops) = half_open_max_calls (config cb) ->
        (forall operation w0, operation ∈ ops -> raised (fst (call operation w0)) = false) ->
        state (breaker_after ops cb w) = CLOSED /\
        failure_count (breaker_after ops cb w) = 0%Z /\
        success_count (breaker_after ops cb w) = 0%Z /\
        half_open_calls (breaker_after ops cb w) = half_open_calls cb)
  /\ (forall cb operation w e w1,
        state cb = HALF_OPEN -> call operation w = (Raises e, w1) ->
        exists cb' w2,
          breaker_execute cb operation w = (Raises e, cb', w2) /\ state cb' = OPEN)
  /\ (forall cb operation w v w1,
        state cb = CLOSED -> call operation w = (Returns v, w1) ->
        breaker_execute cb operation w = (Returns v, set_failure_count 0 cb, w1) /\
        state (set_failure_count 0 cb) = CLOSED /\
        failure_count (set_failure_count 0 cb) = 0%Z).
Proof.
  split; [|split; [|split; [|split; [|split; [|split]]]]].
  - intros ops cb w Hs Hfc Hfail.
    destruct (closed_failures ops cb w Hs Hfail) as [H1 H2]. rewrite Hfc in H1, H2.
    split.
    + intros Hlt. apply H1. lia.
    + intros Hth Hlen. apply H2; lia.
  - intros cb operation w t Hs Ht Hlt.
    apply breaker_execute_rejected, (is_open_within_timeout cb w t); assumption.
  - intros cb operation w t Hs Ht Hle probing.
    pose proof (is_open_after_timeout cb w t Hs Ht Hle) as Hio.
    split; [exact Hio|].
    unfold breaker_execute at 1. rewrite Hio.
    unfold breaker_execute. rewrite (is_open_not_open probing); [reflexivity|].
    subst probing. simpl. discriminate.
  - intros ops cb w Hs Hsc Hmax.
    pose proof (half_open_episode_bound ops cb w). lia.
  - intros ops cb w Hs Hsc Hmax Hlen Hok.
    apply (half_open_successes ops cb w Hs Hok); lia.
  - intros cb operation w e w1 Hs Hc.
    rewrite (breaker_execute_raises cb operation w cb w e w1
               (is_open_not_open cb w ltac:(rewrite Hs; discriminate)) Hc).
    eexists _, _. split; [reflexivity|].
    destruct (record_failure_fields cb w1) as (_ & _ & _ & _ & _ & Hst).
    rewrite Hst, bool_decide_eq_true_2 by exact Hs. reflexivity.
  - intros cb operation w v w1 Hs Hc.
    rewrite (breaker_execute_returns cb operation w cb w v w1
               (is_open_not_open cb w ltac:(rewrite Hs; discriminate)) Hc).
    unfold record_success. simpl.
    rewrite bool_decide_eq_false_2 by (rewrite Hs; discriminate).
    repeat split. exact Hs.
Qed.

(** A HALF_OPEN breaker lets every call in and keeps no count of it:
    reading [is_open] answers False and changes nothing, [half_open_calls]
    included, so calls that start before an earlier one has finished all go
    through. *)
Lemma is_open_half_open cb w :
  state cb = HALF_OPEN -> is_open cb w = (false, cb, w).
Proof. intros Hs. apply is_open_not_open. rewrite Hs. discriminate. Qed.


(** *** What [ResilientExecutor.execute] does *)

Lemma chain_execute_lambda_none chain w :
  chain_execute chain lambda_none w = (Returns (mkFallbackResult true VNone 0 None), w).
Proof. reflexivity. Qed.

(** With the breaker OPEN and fallbacks given, the chain is run with
    [lambda: None] as its primary operation; this primary returns, so the
    chain ends at level 0 and [None] is handed back: no fallback is tried. *)
Lemma resilient_execute_open ex operation circuit_name fb rest w cb ex1 cb1 w1 :
  get_circuit_breaker circuit_name ex = (cb, ex1) ->
  is_open cb w = (true, cb1, w1) ->
  resilient_execute ex operation circuit_name (Some (fb :: rest)) w =
    (Returns VNone, put_breaker circuit_name cb1 ex1, w1).
Proof.
  intros Hg Hio. unfold resilient_execute. rewrite Hg, Hio.
  rewrite chain_execute_lambda_none. reflexivity.
Qed.

(** With the breaker not rejecting and at least one attempt allowed, the
    first attempt of the retry loop calls the lambda, which returns the
    coroutine object of [circuit.execute(operation)]; that object is the
    result. The operation has not run and the breaker has recorded nothing. *)
Lemma resilient_execute_passed ex operation circuit_name fbs w cb ex1 cb1 w1 :
  get_circuit_breaker circuit_name ex = (cb, ex1) ->
  is_open cb w = (false, cb1, w1) ->
  (0 <= max_retries (executor_config ex))%Z ->
  resilient_execute ex operation circuit_name fbs w =
    (Returns (VCoroutine circuit_name (call operation)),
     put_breaker circuit_name cb1 ex1, w1).
Proof.
  intros Hg Hio Hmax. unfold resilient_execute. rewrite Hg, Hio.
  unfold execute_with_retry.
  destruct (Z.to_nat (max_retries (executor_config ex) + 1)) as [|n] eqn:E; [lia|].
  reflexivity.
Qed.


(** *** What a circuit breaker keeps true *)

Ltac breaker_case :=
  simpl in *; intros;
  repeat match goal with
         | H : ?x = ?x -> _ |- _ => specialize (H eq_refl)
         | H : ?x <> ?y -> _ |- _ =>
             first [ specialize (H ltac:(discriminate)) | clear H ]
         end;
  first [ reflexivity | assumption | lia | congruence | discriminate
        | (eexists; reflexivity) | (exfalso; congruence) ].

Ltac breaker_fields cb :=
  let s := fresh "s" in
  destruct cb as [? ? s ? ? ? ?]; destruct s; simpl in *;
  repeat match goal with
         | |- context [time ?w] => destruct (time w) as [? ?]; simpl
         | |- context [(?a <=? ?b)%Z] =>
             let E := fresh "E" in
             destruct (Z.leb_spec a b) as [E|E]; simpl
         end;
  repeat split; breaker_case.

Lemma breaker_execute_cases cb operation w :
  let cb' := snd (fst (breaker_execute cb operation w)) in
  (cb' = cb /\ state cb = OPEN) \/
  exists cb1,
    ((cb1 = cb /\ state cb <> OPEN) \/
     (cb1 = set_half_open_calls 0 (set_state HALF_OPEN cb) /\ state cb = OPEN)) /\
    (cb' = record_success cb1 \/ exists w2, cb' = fst (record_failure cb1 w2)).
Proof.
  intros cb'. subst cb'.
  assert (Hio : exists cb1 w1,
    (is_open cb w = (true, cb, w1) /\ state cb = OPEN) \/
    (is_open cb w = (false, cb1, w1) /\
     ((cb1 = cb /\ state cb <> OPEN) \/
      (cb1 = set_half_open_calls 0 (set_state HALF_OPEN cb) /\ state cb = OPEN)))).
  { unfold is_open. case_bool_decide as Hs.
    - destruct (_should_attempt_recovery cb w) as [[|] w1].
      + exists (set_half_open_calls 0 (set_state HALF_OPEN cb)), w1. right. auto.
      + exists cb, w1. left. auto.
    - exists cb, w. right. auto. }
  destruct Hio as (cb1 & w1 & [[Hio Hs]|[Hio Hcb1]]).
  - left. rewrite (breaker_execute_rejected cb operation w cb w1 Hio). auto.
  - right. exists cb1. split; [exact Hcb1|].
    destruct (call operation w1) as [[v|e] w2] eqn:Ec.
    + left. rewrite (breaker_execute_returns cb operation w cb1 w1 v w2 Hio Ec). reflexivity.
    + right. exists w2.
      rewrite (breaker_execute_raises cb operation w cb1 w1 e w2 Hio Ec). reflexivity.
Qed.

Lemma probing_inv n cfg cb :
  state cb = OPEN -> breaker_inv n cfg cb ->
  breaker_inv n cfg (set_half_open_calls 0 (set_state HALF_OPEN cb)).
Proof.
  unfold breaker_inv. intros Hs (Hn & Hc & Hh & Hf & Hsc & Hcl & Hop & Hl).
  assert (is_Some (last_failure_time cb)) by (apply Hl; congruence).
  breaker_fields cb.
Qed.

Lemma record_success_inv n cfg cb :
  state cb <> OPEN -> breaker_inv n cfg cb -> breaker_inv n cfg (record_success cb).
Proof.
  unfold breaker_inv, record_success. intros Hs (Hn & Hc & Hh & Hf & Hsc & Hcl & Hop & Hl).
  breaker_fields cb.
Qed.

Lemma record_failure_inv n cfg cb w :
  breaker_inv n cfg cb -> breaker_inv n cfg (fst (record_failure cb w)).
Proof.
  unfold breaker_inv, record_failure. intros (Hn & Hc & Hh & Hf & Hsc & Hcl & Hop & Hl).
  breaker_fields cb.
Qed.

Lemma breaker_execute_inv n cfg cb operation w :
  breaker_inv n cfg cb ->
  breaker_inv n cfg (snd (fst (breaker_execute cb operation w))).
Proof.
  intros Hinv.
  destruct (breaker_execute_cases cb operation w)
    as [[-> _]|(cb1 & Hcb1 & Hcb')]; [exact Hinv|].
  assert (Hinv1 : breaker_inv n cfg cb1 /\ state cb1 <> OPEN).
  { destruct Hcb1 as [[-> Hs]|[-> Hs]]; [auto|].
    split; [apply probing_inv; assumption | discriminate]. }
  destruct Hinv1 as [Hinv1 Hs1].
  destruct Hcb' as [->|[w2 ->]].
  - apply record_success_inv; assumption.
  - apply record_failure_inv; assumption.
Qed.

Lemma probing_limits cb :
  breaker_within_limits cb ->
  breaker_within_limits (set_half_open_calls 0 (set_state HALF_OPEN cb)).
Proof. unfold breaker_within_limits. intros [H1 H2]. breaker_fields cb. Qed.

Lemma record_success_limits cb :
  (1 <= failure_threshold (config cb))%Z -> (1 <= half_open_max_calls (config cb))%Z ->
  breaker_within_limits cb -> breaker_within_limits (record_success cb).
Proof.
  unfold breaker_within_limits, record_success. intros Hth Hmax [H1 H2].
  breaker_fields cb.
Qed.

Lemma record_failure_limits cb w :
  breaker_within_limits cb -> breaker_within_limits (fst (record_failure cb w)).
Proof.
  unfold breaker_within_limits, record_failure. intros [H1 H2]. breaker_fields cb.
Qed.

Lemma breaker_execute_config cb operation w :
  config (snd (fst (breaker_execute cb operation w))) = config cb.
Proof.
  destruct (breaker_execute_cases cb operation w)
    as [[-> _]|(cb1 & Hcb1 & Hcb')]; [reflexivity|].
  assert (Hc : config cb1 = config cb) by (destruct Hcb1 as [[-> _]|[-> _]]; reflexivity).
  rewrite <- Hc.
  destruct Hcb' as [->|[w2 ->]].
  - apply record_success_fields.
  - apply record_failure_fields.
Qed.

Lemma breaker_execute_limits cb operation w :
  (1 <= failure_threshold (config cb))%Z ->
  (1 <= half_open_max_calls (config cb))%Z ->
  breaker_within_limits cb ->
  breaker_within_limits (snd (fst (breaker_execute cb operation w))).
Proof.
  intros Hth Hmax Hinv.
  destruct (breaker_execute_cases cb operation w)
    as [[-> _]|(cb1 & Hcb1 & Hcb')]; [exact Hinv|].
  assert (Hinv1 : breaker_within_limits cb1 /\ config cb1 = config cb).
  { destruct Hcb1 as [[-> Hs]|[-> Hs]]; [auto|].
    split; [apply probing_limits; assumption | reflexivity]. }
  destruct Hinv1 as [Hinv1 Hc1].
  destruct Hcb' as [->|[w2 ->]].
  - apply record_success_limits; [rewrite Hc1; exact Hth | rewrite Hc1; exact Hmax | exact Hinv1].
  - apply record_failure_limits; assumption.
Qed.

Lemma run_calls_cons operation rest cb w :
  breaker_after (operation :: rest) cb w =
  breaker_after rest (snd (fst (breaker_execute cb operation w)))
                     (snd (breaker_execute cb operation w)).
Proof.
  unfold breaker_after. simpl.
  destruct (breaker_execute cb operation w) as [[o cb1] w1]. simpl.
  destruct (run_calls rest cb1 w1) as [[os cb2] w2]. reflexivity.
Qed.

(** X12. Whatever operations are called through a breaker, one after the
    other, and whatever they do, the breaker keeps its name and
    configuration, its counters never go negative, [half_open_calls] is
    never anything but 0, a CLOSED breaker has [success_count] 0, an OPEN
    breaker has counted at least one failure, and a breaker that is not
    CLOSED has a [last_failure_time] (so that [_should_attempt_recovery]
    always compares with a real time). *)
Theorem breaker_invariants (ops : list Callable) (n : string) (cfg : ResilienceConfig)
    (w : W) :
  let cb := breaker_after ops (new_breaker n cfg) w in
  name cb = n /\ config cb = cfg /\ half_open_calls cb = 0%Z /\
  (0 <= failure_count cb)%Z /\ (0 <= success_count cb)%Z /\
  (state cb = CLOSED -> success_count cb = 0%Z) /\
  (state cb = OPEN -> (1 <= failure_count cb)%Z) /\
  (state cb <> CLOSED -> is_Some (last_failure_time cb)).
Proof.
  intros cb. subst cb.
  assert (H : forall cb0 w0, breaker_inv n cfg cb0 ->
                             breaker_inv n cfg (breaker_after ops cb0 w0)).
  { induction ops as [|operation rest IH]; intros cb0 w0 Hinv; [exact Hinv|].
    rewrite run_calls_cons. apply IH, breaker_execute_inv, Hinv. }
  apply (H (new_breaker n cfg) w). unfold breaker_inv, new_breaker. simpl.
  repeat split; try reflexivity; try lia; try discriminate.
  intros Hne. exfalso. apply Hne. reflexivity.
Qed.

(** X13. With [failure_threshold] and [half_open_max_calls] at least 1, a
    breaker that is CLOSED after any sequence of calls has counted fewer
    failures than [failure_threshold], and [success_count] stays below
    [half_open_max_calls] in every state: a breaker is never CLOSED with the
    threshold reached. *)
Theorem breaker_limits (ops : list Callable) (n : string) (cfg : ResilienceConfig)
    (w : W) :
  (1 <= failure_threshold cfg)%Z -> (1 <= half_open_max_calls cfg)%Z ->
  let cb := breaker_after ops (new_breaker n cfg) w in
  (state cb = CLOSED -> (failure_count cb < failure_threshold cfg)%Z) /\
  (success_count cb < half_open_max_calls cfg)%Z.
Proof.
  intros Hth Hmax cb. subst cb.
  assert (H : forall cb0 w0, config cb0 = cfg -> breaker_within_limits cb0 ->
                breaker_within_limits (breaker_after ops cb0 w0) /\
                config (breaker_after ops cb0 w0) = cfg).
  { induction ops as [|operation rest IH]; intros cb0 w0 Hc Hinv; [auto|].
    rewrite run_calls_cons.
    apply IH; [rewrite breaker_execute_config; exact Hc|].
    apply breaker_execute_limits; [rewrite Hc; exact Hth | rewrite Hc; exact Hmax | exact Hinv]. }
  destruct (H (new_breaker n cfg) w) as [[H1 H2] H3].
  - reflexivity.
  - unfold breaker_within_limits. simpl. split; [intros _|]; lia.
  - rewrite H3 in H1, H2. auto.
Qed.

(** *** Sequences of calls *)

Lemma run_calls_app ops1 ops2 :
  forall cb w,
    breaker_after (ops1 ++ ops2) cb w =
    breaker_after ops2 (breaker_after ops1 cb w) (snd (run_calls ops1 cb w)).
Proof.
  induction ops1 as [|operation rest IH]; intros cb w; [reflexivity|].
  change ((operation :: rest) ++ ops2) with (operation :: (rest ++ ops2)).
  rewrite !run_calls_cons, IH. simpl.
  destruct (breaker_execute cb operation w) as [[o cb1] w1]. simpl.
  destruct (run_calls rest cb1 w1) as [[os cb2] w2]. reflexivity.
Qed.

Lemma half_open_partial ops :
  forall cb w,
    state cb = HALF_OPEN ->
    (forall operation w0, operation ∈ ops -> raised (fst (call operation w0)) = false) ->
    (success_count cb + Z.of_nat (length ops) < half_open_max_calls (config cb))%Z ->
    let cb' := breaker_after ops cb w in
    state cb' = HALF_OPEN /\
    success_count cb' = (success_count cb + Z.of_nat (length ops))%Z /\
    config cb' = config cb.
Proof.
  induction ops as [|operation rest IH]; intros cb w Hs Hok Hlt.
  - simpl. unfold breaker_after. simpl. split; [exact Hs|]. split; [lia | reflexivity].
  - intros cb'. subst cb'. rewrite run_calls_cons.
    pose proof (Hok operation w (list_elem_of_here _ _)) as Hop.
    destruct (call operation w) as [[v|e] w1] eqn:Ec; [|discriminate].
    rewrite (breaker_execute_returns cb operation w cb w v w1
               (is_open_half_open cb w Hs) Ec). simpl.
    destruct (record_success_fields cb) as (_ & _ & _ & Hcfg & _ & Hho).
    specialize (Hho Hs). simpl length in Hlt.
    destruct (Z.leb_spec (half_open_max_calls (config cb)) (success_count cb + 1)) as [E|E];
      [lia|].
    destruct Hho as [Hs1 Hsc1].
    destruct (IH (record_success cb) w1) as (H1 & H2 & H3).
    + exact Hs1.
    + intros op w0 Hin. apply Hok, list_elem_of_further, Hin.
    + rewrite Hcfg, Hsc1. lia.
    + split; [exact H1|]. split; [rewrite H2, Hsc1; lia | congruence].
Qed.

(** X14. A HALF_OPEN breaker closes exactly at the successful call that
    brings [success_count] to [half_open_max_calls]: while the successes
    counted so far stay below it the breaker remains HALF_OPEN and counts
    them, and the sequence of successes that reaches it leaves the breaker
    CLOSED with both counters at 0. The count starts from the
    [success_count] the breaker has on entering HALF_OPEN. *)
Theorem half_open_closes_at_limit (ops : list Callable) (cb : CircuitBreaker) (w : W) :
  state cb = HALF_OPEN ->
  (forall operation w0, operation ∈ ops -> raised (fst (call operation w0)) = false) ->
  let cb' := breaker_after ops cb w in
  ((success_count cb + Z.of_nat (length ops) < half_open_max_calls (config cb))%Z ->
     state cb' = HALF_OPEN /\
     success_count cb' = (success_count cb + Z.of_nat (length ops))%Z) /\
  ((1 <= length ops)%nat ->
   (half_open_max_calls (config cb) <= success_count cb + Z.of_nat (length ops))%Z ->
     state cb' = CLOSED /\ failure_count cb' = 0%Z /\ success_count cb' = 0%Z).
Proof.
  intros Hs Hok cb'. subst cb'. split.
  - intros Hlt. destruct (half_open_partial ops cb w Hs Hok Hlt) as (H1 & H2 & _). auto.
  - intros Hlen Hge.
    destruct (half_open_successes ops cb w Hs Hok Hlen Hge) as (H1 & H2 & H3 & _). auto.
Qed.

(** X15. A success wipes the failures counted so far: a CLOSED breaker that
    sees failures short of the threshold, then one success, then again
    failures short of the threshold is still CLOSED, and its
    [failure_count] is the number of failures since the success. Only
    [failure_threshold] failures in a row open a breaker. *)
Theorem success_restarts_failure_count (ops1 ops2 : list Callable) (ok : Callable)
    (cb : CircuitBreaker) (w : W) :
  state cb = CLOSED ->
  (forall operation w0, operation ∈ ops1 ++ ops2 ->
     raised (fst (call operation w0)) = true) ->
  (forall w0, raised (fst (call ok w0)) = false) ->
  (failure_count cb + Z.of_nat (length ops1) < failure_threshold (config cb))%Z ->
  (Z.of_nat (length ops2) < failure_threshold (config cb))%Z ->
  let cb' := breaker_after (ops1 ++ ok :: ops2) cb w in
  state cb' = CLOSED /\ failure_count cb' = Z.of_nat (length ops2).
Proof.
  intros Hs Hfail Hok Hlt1 Hlt2 cb'. subst cb'.
  rewrite run_calls_app.
  set (cb1 := breaker_after ops1 cb w). set (w1 := snd (run_calls ops1 cb w)).
  assert (H1 : state cb1 = CLOSED /\ config cb1 = config cb).
  { destruct (closed_failures ops1 cb w Hs) as [Hc _].
    - intros op w0 Hin. apply Hfail, elem_of_app. left. exact Hin.
    - split; [apply Hc, Hlt1|].
      subst cb1. clear. revert cb w.
      induction ops1 as [|op rest IH]; intros cb w; [reflexivity|].
      rewrite run_calls_cons, IH. apply breaker_execute_config. }
  destruct H1 as [Hs1 Hc1].
  change (ok :: ops2) with ([ok] ++ ops2). rewrite run_calls_app.
  set (cb2 := breaker_after [ok] cb1 w1). set (w2 := snd (run_calls [ok] cb1 w1)).
  assert (H2 : state cb2 = CLOSED /\ failure_count cb2 = 0%Z /\ config cb2 = config cb).
  { destruct (closed_successes [ok] cb1 w1 Hs1) as (Hc & _ & _ & Hz).
    - intros op w0 ->%list_elem_of_singleton. apply Hok.
    - split; [exact Hc|]. split; [apply Hz; simpl; lia|].
      subst cb2. rewrite run_calls_cons. unfold breaker_after. simpl.
      rewrite breaker_execute_config. exact Hc1. }
  destruct H2 as (Hs2 & Hf2 & Hc2).
  destruct (closed_failures ops2 cb2 w2 Hs2) as [Hc _].
  - intros op w0 Hin. apply Hfail, elem_of_app. right. exact Hin.
  - rewrite Hf2, Hc2 in Hc. destruct (Hc ltac:(lia)) as [Hst Hfc].
    split; [exact Hst|]. rewrite Hfc. lia.
Qed.

(** X16. A probe that fails sends the breaker back to OPEN and restarts the
    recovery timeout: from HALF_OPEN, a call whose operation raises is
    re-raised, the breaker is OPEN with [last_failure_time] the time read
    right after the operation, and a further call is rejected without
    running its operation for as long as the clock stays within
    [recovery_timeout] of that time. *)
Theorem failed_probe_reopens (cb : CircuitBreaker) (operation next : Callable)
    (w w1 : W) (e : Exn) :
  state cb = HALF_OPEN ->
  call operation w = (Raises e, w1) ->
  let cb' := snd (fst (breaker_execute cb operation w)) in
  let w' := snd (breaker_execute cb operation w) in
  fst (fst (breaker_execute cb operation w)) = Raises e /\
  state cb' = OPEN /\ last_failure_time cb' = Some (fst (time w1)) /\
  w' = snd (time w1) /\
  (~ (recovery_timeout (config cb) <= fst (time w') - fst (time w1))%Q ->
   breaker_execute cb' next w' =
     (Raises (TransientError ("Circuit " +:+ name cb +:+ " is open")), cb', snd (time w'))).
Proof.
  intros Hs Ec cb' w'. subst cb' w'.
  rewrite (breaker_execute_raises cb operation w cb w e w1 (is_open_half_open cb w Hs) Ec).
  simpl.
  destruct (record_failure_fields cb w1) as (_ & _ & Hlf & _ & Hcfg & Hst).
  rewrite (bool_decide_eq_true_2 _ Hs) in Hst.
  assert (Hw : snd (record_failure cb w1) = snd (time w1)).
  { unfold record_failure. destruct (time w1) as [t w2]. simpl.
    repeat (destruct (_ : bool)); reflexivity. }
  assert (Hn : name (fst (record_failure cb w1)) = name cb).
  { unfold record_failure. destruct (time w1) as [t w2]. simpl.
    repeat (destruct (_ : bool)); reflexivity. }
  split; [reflexivity|]. split; [exact Hst|]. split; [exact Hlf|]. split; [exact Hw|].
  intros Hwithin. rewrite <- Hn.
  apply breaker_execute_rejected.
  apply (is_open_within_timeout _ _ (fst (time w1))); [exact Hst | exact Hlf |].
  rewrite Hcfg. exact Hwithin.
Qed.

(** *** More about the retry loop *)

Lemma calculate_delay_bound cfg a w :
  (1 <= exponential_base cfg)%Q ->
  (0 <= base_delay cfg)%Q -> (0 <= max_delay cfg)%Q -> (0 <= jitter_factor cfg)%Q ->
  (0 <= fst (random w) <= 1)%Q ->
  match calculate_delay cfg a w with
  | (Returns d, w1) =>
      (0 <= d <= max_delay cfg * (1 + jitter_factor cfg))%Q /\ w1 = snd (random w)
  | (Raises _, w1) => w1 = w
  end.
Proof.
  intros He Hb Hm Hj Hu.
  destruct (capped_delay_cases cfg a He) as [Hin Hout].
  destruct (Qlt_le_dec (exponential_base cfg ^ a) float_limit) as [Hlt|Hge].
  - rewrite (calculate_delay_value cfg a w (Hin Hlt)).
    pose proof (backoff_nonneg cfg a He Hb Hm) as Hd0.
    pose proof (backoff_le_max cfg a) as HdM.
    assert (Hdj : (0 <= backoff cfg a * jitter_factor cfg)%Q)
      by (apply Qmult_le_0_compat; assumption).
    pose proof (uniform_range (backoff cfg a * jitter_factor cfg) w Hdj Hu) as [Hj0 Hj1].
    assert (HMj : (backoff cfg a * jitter_factor cfg
                   <= max_delay cfg * jitter_factor cfg)%Q)
      by (apply Qmult_le_compat_r; assumption).
    split; [split; lra | reflexivity].
  - unfold calculate_delay. rewrite (Hout Hge). reflexivity.
Qed.


Section Sleep_budget.

(** A measure [slept] of the world that [asyncio.sleep] raises by no more
    than the time slept and that nothing else raises. *)
Variable cfg : ResilienceConfig.
Variable operation : Callable.
Variable on_retry : option (Z -> Exn -> W -> Outcome unit * W).
Variable slept : W -> Q.
Hypothesis base_ok : (1 <= exponential_base cfg)%Q.
Hypothesis delay_ok : (0 <= base_delay cfg)%Q.
Hypothesis cap_ok : (0 <= max_delay cfg)%Q.
Hypothesis jitter_ok : (0 <= jitter_factor cfg)%Q.
Hypothesis random_range : forall w, (0 <= fst (random w) <= 1)%Q.
Hypothesis random_slept : forall w, (slept (snd (random w)) <= slept w)%Q.
Hypothesis sleep_slept : forall d w, (slept (sleep d w) <= slept w + d)%Q.
Hypothesis operation_slept : forall w, (slept (snd (_execute operation w)) <= slept w)%Q.
Hypothesis on_retry_slept :
  forall f a e w, on_retry = Some f -> (slept (snd (f a e w)) <= slept w)%Q.

Lemma on_transient_slept a e w :
  (slept (snd (on_transient cfg on_retry a e w))
   <= slept w + (if (a <? max_retries cfg)%Z
                 then max_delay cfg * (1 + jitter_factor cfg) else 0))%Q.
Proof.
  unfold on_transient. destruct (a <? max_retries cfg)%Z; [|simpl; lra].
  pose proof (calculate_delay_bound cfg a w base_ok delay_ok cap_ok jitter_ok
                (random_range w)) as Hb.
  assert (HD : (0 <= max_delay cfg * (1 + jitter_factor cfg))%Q)
    by (apply Qmult_le_0_compat; lra).
  destruct (calculate_delay cfg a w) as [[delay|e0] w1].
  - destruct Hb as [Hd Hw]. pose proof (random_slept w) as Hr. rewrite <- Hw in Hr.
    destruct on_retry as [f|] eqn:Ef.
    + pose proof (on_retry_slept f (a + 1)%Z e w1 eq_refl) as Hf.
      destruct (f (a + 1)%Z e w1) as [[u|e'] w2]; simpl in *.
      * pose proof (sleep_slept delay w2). lra.
      * lra.
    + simpl. pose proof (sleep_slept delay w1). lra.
  - subst w1. simpl. lra.
Qed.

Lemma retry_loop_slept n :
  forall a last w,
    (slept (snd (retry_loop cfg operation on_retry n a last w))
     <= slept w
        + inject_Z (Z.max 0 (Z.min (Z.of_nat n) (max_retries cfg - a)))
          * (max_delay cfg * (1 + jitter_factor cfg)))%Q.
Proof.
  assert (HD : (0 <= max_delay cfg * (1 + jitter_factor cfg))%Q)
    by (apply Qmult_le_0_compat; lra).
  assert (Hmono : forall x y, (0 <= x <= y)%Z ->
            (0 <= inject_Z x * (max_delay cfg * (1 + jitter_factor cfg))
             <= inject_Z y * (max_delay cfg * (1 + jitter_factor cfg)))%Q).
  { intros x y [Hx Hxy]. split.
    - apply Qmult_le_0_compat; [|exact HD]. change 0%Q with (inject_Z 0).
      rewrite <- Zle_Qle. exact Hx.
    - apply Qmult_le_compat_r; [|exact HD]. rewrite <- Zle_Qle. exact Hxy. }
  assert (Hnn : forall y, (0 <= y)%Z ->
            (0 <= inject_Z y * (max_delay cfg * (1 + jitter_factor cfg)))%Q).
  { intros y Hy. apply Qmult_le_0_compat; [|exact HD]. change 0%Q with (inject_Z 0).
    rewrite <- Zle_Qle. exact Hy. }
  induction n as [|n IH]; intros a last w.
  - pose proof (Hnn (Z.max 0 (Z.min (Z.of_nat 0) (max_retries cfg - a))) ltac:(lia)) as H.
    simpl retry_loop. simpl snd. lra.
  - set (r := Z.max 0 (Z.min (Z.of_nat (S n)) (max_retries cfg - a))).
    set (r' := Z.max 0 (Z.min (Z.of_nat n) (max_retries cfg - (a + 1)))).
    pose proof (Hnn r ltac:(subst r; lia)) as Hr0.
    assert (H0 : (slept (snd (_execute operation w))
                  <= slept w + inject_Z r * (max_delay cfg * (1 + jitter_factor cfg)))%Q).
    { pose proof (operation_slept w). lra. }
    simpl retry_loop.
    destruct (_execute operation w) as [[v|e] w1] eqn:Eop; simpl in H0; [exact H0|].
    destruct e; try exact H0.
    pose proof (on_transient_slept a (TransientError msg) w1) as Hh.
    pose proof (operation_slept w) as Hop. rewrite Eop in Hop. simpl in Hop.
    destruct (on_transient cfg on_retry a (TransientError msg) w1) as [[u|e'] w2] eqn:Eh;
      simpl in Hh.
    + specialize (IH (a + 1)%Z (Some (TransientError msg)) w2). fold r' in IH.
      destruct (Z.ltb_spec a (max_retries cfg)) as [Hlt|Hge].
      * assert (Hr : r = (r' + 1)%Z) by (subst r r'; lia).
        rewrite Hr, inject_Z_plus. change (inject_Z 1) with 1%Q. lra.
      * destruct (Hmono r' r) as [_ H']; [subst r r'; lia|]. lra.
    + simpl. destruct (Z.ltb_spec a (max_retries cfg)) as [Hlt|Hge].
      * destruct (Hmono 1%Z r) as [_ H']; [subst r; lia|].
        change (inject_Z 1) with 1%Q in H'. lra.
      * lra.
Qed.

(** X18. The time [execute_with_retry] spends asleep is bounded: with
    [exponential_base >= 1], non-negative delays and jitter factor and a
    random source in [0, 1], the function sleeps at most [max_retries] times
    and each time no longer than [max_delay * (1 + jitter_factor)]; there is
    no sleep after the last attempt. *)
Theorem retry_sleep_budget (w : W) :
  (slept (snd (execute_with_retry cfg operation on_retry w))
   <= slept w
      + inject_Z (Z.max 0 (max_retries cfg))
        * (max_delay cfg * (1 + jitter_factor cfg)))%Q.
Proof.
  unfold execute_with_retry.
  pose proof (retry_loop_slept (Z.to_nat (max_retries cfg + 1)) 0%Z None w) as H.
  replace (Z.max 0 (Z.min (Z.of_nat (Z.to_nat (max_retries cfg + 1))) (max_retries cfg - 0)))
    with (Z.max 0 (max_retries cfg)) in H by lia.
  exact H.
Qed.

End Sleep_budget.

(** *** The registry of breakers and [ResilientExecutor.execute] *)

(** X19. [get_circuit_breaker] creates a breaker on the first request for a
    name and hands out the same object, state included, on every later one:
    the breaker returned is the one registered under the name afterwards, a
    second request returns it again and changes nothing, a name that was
    registered keeps its breaker, a new name gets a fresh CLOSED breaker with
    the executor's configuration, and no other name is touched. *)
Theorem get_circuit_breaker_registry (n : string) (ex : ResilientExecutor) :
  let cb := fst (get_circuit_breaker n ex) in
  let ex' := snd (get_circuit_breaker n ex) in
  circuit_breakers ex' !! n = Some cb /\
  get_circuit_breaker n ex' = (cb, ex') /\
  executor_config ex' = executor_config ex /\
  (forall m, m <> n -> circuit_breakers ex' !! m = circuit_breakers ex !! m) /\
  (forall cb0, circuit_breakers ex !! n = Some cb0 -> cb = cb0 /\ ex' = ex) /\
  (circuit_breakers ex !! n = None -> cb = new_breaker n (executor_config ex)).
Proof.
  intros cb ex'. subst cb ex'.
  assert (Hcase :
    (exists cb0, circuit_breakers ex !! n = Some cb0 /\
                 get_circuit_breaker n ex = (cb0, ex)) \/
    (circuit_breakers ex !! n = None /\
     get_circuit_breaker n ex =
       (new_breaker n (executor_config ex),
        mkExecutor (executor_config ex)
          (<[n := new_breaker n (executor_config ex)]> (circuit_breakers ex))))).
  { unfold get_circuit_breaker. destruct (circuit_breakers ex !! n); eauto. }
  destruct Hcase as [(cb0 & E & Eg)|[E Eg]]; rewrite Eg; simpl.
  - split; [exact E|]. split; [exact Eg|].
    split; [reflexivity|]. split; [reflexivity|]. split; [|congruence].
    intros cb1 Hcb1. rewrite E in Hcb1. injection Hcb1 as <-. auto.
  - split; [apply lookup_insert_eq|].
    split; [unfold get_circuit_breaker; simpl; rewrite lookup_insert_eq; reflexivity|].
    split; [reflexivity|].
    split; [intros m Hm; apply lookup_insert_ne; congruence|].
    split; [congruence | reflexivity].
Qed.

(** X20. With [max_retries >= 0], [ResilientExecutor.execute] runs neither
    the operation nor any fallback, whatever they are: the world it leaves
    is the one left by the [is_open] check, the breaker written back is the
    one that check left (nothing is recorded in it), and the outcome is
    fixed by the check and by whether fallbacks were given: rejected without
    fallbacks raises the "is open and no fallbacks" TransientError, rejected
    with fallbacks returns [None], and a call that is let through returns
    the coroutine object of [circuit.execute]. *)
Theorem resilient_execute_runs_nothing (ex : ResilientExecutor) (operation : Callable)
    (circuit_name : string) (fbs : option (list Callable)) (w : W) :
  (0 <= max_retries (executor_config ex))%Z ->
  let circuit := fst (get_circuit_breaker circuit_name ex) in
  let ex1 := snd (get_circuit_breaker circuit_name ex) in
  let rejected := fst (fst (is_open circuit w)) in
  let circuit' := snd (fst (is_open circuit w)) in
  resilient_execute ex operation circuit_name fbs w =
    (if rejected then
       match fbs with
       | Some (_ :: _) => Returns VNone
       | _ => Raises (TransientError
                        ("Circuit " +:+ circuit_name +:+ " is open and no fallbacks"))
       end
     else Returns (VCoroutine circuit_name (call operation)),
     put_breaker circuit_name circuit' ex1,
     snd (is_open circuit w)) /\
  failure_count circuit' = failure_count circuit /\
  success_count circuit' = success_count circuit.
Proof.
  intros Hmax circuit ex1 rejected circuit'. subst circuit ex1 rejected circuit'.
  destruct (get_circuit_breaker circuit_name ex) as [cb ex1] eqn:Eg. simpl.
  destruct (is_open cb w) as [[rejected cb1] w1] eqn:Eio. simpl.
  split.
  - destruct rejected.
    + destruct fbs as [[|fb rest]|].
      * unfold resilient_execute. rewrite Eg, Eio. reflexivity.
      * apply (resilient_execute_open ex operation circuit_name fb rest w cb ex1 cb1 w1 Eg Eio).
      * unfold resilient_execute. rewrite Eg, Eio. reflexivity.
    + apply (resilient_execute_passed ex operation circuit_name fbs w cb ex1 cb1 w1 Eg Eio Hmax).
  - revert Eio. unfold is_open. case_bool_decide.
    + destruct (_should_attempt_recovery cb w) as [[|] w']; intros [= _ <- _]; auto.
    + intros [= _ <- _]. auto.
Qed.

(** *** [with_fallback] *)

Lemma fallbacks_foldl (f : Function -> Callable) fbs :
  forall chain,
    fallbacks (foldl (fun chain fb => add_fallback (f fb) chain) chain fbs)
      = fallbacks chain ++ map f fbs /\
    chain_config (foldl (fun chain fb => add_fallback (f fb) chain) chain fbs)
      = chain_config chain.
Proof.
  induction fbs as [|fb rest IH]; intros chain; simpl.
  - rewrite app_nil_r. auto.
  - destruct (IH (add_fallback (f fb) chain)) as [-> ->]. simpl.
    rewrite <- (assoc_L (++)). auto.
Qed.

Lemma with_fallback_operations fallback_funcs func :
  let chain :=
    foldl (fun chain fb => add_fallback (lambda_call fb) chain)
          (new_chain default_config) fallback_funcs in
  chain_config chain = default_config /\
  operations chain (lambda_call func) =
    lambda_call func :: map lambda_call (take 3 fallback_funcs).
Proof.
  intros chain. subst chain.
  destruct (fallbacks_foldl lambda_call fallback_funcs (new_chain default_config))
    as [Hf Hc].
  split; [exact Hc|]. unfold operations. rewrite Hf, Hc. simpl.
  unfold slice_to. simpl. rewrite <- fmap_take. reflexivity.
Qed.

(** X21. [with_fallback] builds its chain with the default configuration,
    whose [max_fallback_depth] is 4: only the first three fallback
    functions are ever used, and a fourth or later one makes no difference
    to any call. *)
Theorem with_fallback_first_three (fallback_funcs : list Function) (func : Function)
    (w : W) :
  with_fallback fallback_funcs func w = with_fallback (take 3 fallback_funcs) func w.
Proof.
  unfold with_fallback, chain_execute.
  destruct (with_fallback_operations fallback_funcs func) as [Hc Ho].
  destruct (with_fallback_operations (take 3 fallback_funcs) func) as [Hc' Ho'].
  rewrite take_take in Ho'. simpl in Ho'.
  rewrite Hc, Ho, Hc', Ho'. reflexivity.
Qed.

(** X22. [with_fallback] around an [async def] function never runs it: the
    lambda that wraps the call is a plain function, so the chain calls it
    without awaiting, takes the coroutine object for a successful result
    and returns it; no fallback is tried and the world is unchanged,
    whatever the function or the fallbacks would do. *)
Theorem with_fallback_async_not_awaited (fallback_funcs : list Function)
    (func : Function) (w : W) :
  is_async func = true ->
  with_fallback fallback_funcs func w =
    (Returns (VCoroutine (fn_name func) (body func)), w).
Proof.
  intros Ha. unfold with_fallback, chain_execute.
  destruct (with_fallback_operations fallback_funcs func) as [Hc Ho].
  rewrite Hc, Ho. simpl. unfold attempt, lambda_call, call_expr. simpl.
  rewrite Ha. reflexivity.
Qed.

(** X23. [with_fallback] around plain functions: when the function returns,
    its value is returned and no fallback is called; when the function and
    those of the first three fallbacks that come before one raise errors
    that are not catastrophic and that one returns, its value is returned;
    a CatastrophicError of any of them is raised at once; and when the
    function and all of the first three fallbacks fail, the error of the
    last one is raised, never the "All fallbacks failed" placeholder. *)
Theorem with_fallback_plain (fallback_funcs : list Function) (func : Function) :
  let ops := map lambda_call (func :: take 3 fallback_funcs) in
  (forall ops1 f ops2 w w1 v w2,
     ops = ops1 ++ lambda_call f :: ops2 -> is_async f = false ->
     failed_run default_config ops1 w w1 ->
     body f w1 = (Returns v, w2) ->
     with_fallback fallback_funcs func w = (Returns v, w2)) /\
  (forall ops1 f ops2 w w1 m w2,
     ops = ops1 ++ lambda_call f :: ops2 -> is_async f = false ->
     failed_run default_config ops1 w w1 ->
     body f w1 = (Raises (CatastrophicError m), w2) ->
     with_fallback fallback_funcs func w = (Raises (CatastrophicError m), w2)) /\
  (forall ops1 f w w1 e w2,
     ops = ops1 ++ [lambda_call f] -> is_async f = false ->
     failed_run default_config ops1 w w1 ->
     body f w1 = (Raises e, w2) ->
     with_fallback fallback_funcs func w = (Raises e, w2)).
Proof.
  intros ops. subst ops.
  destruct (with_fallback_operations fallback_funcs func) as [Hc Ho].
  assert (Hatt : forall f w1, is_async f = false ->
            attempt default_config (lambda_call f) w1 = body f w1).
  { intros f w1 Hf. unfold attempt, lambda_call, call_expr. simpl. rewrite Hf. reflexivity. }
  split; [|split].
  - intros ops1 f ops2 w w1 v w2 Hops Hf Hrun Hb.
    unfold with_fallback, chain_execute. rewrite Hc, Ho.
    change (lambda_call func :: map lambda_call (take 3 fallback_funcs))
      with (map lambda_call (func :: take 3 fallback_funcs)).
    rewrite Hops, (fallback_loop_failed default_config ops1 w w1 Hrun)
      by (rewrite length_app; simpl; lia).
    simpl. rewrite (Hatt f w1 Hf), Hb. reflexivity.
  - intros ops1 f ops2 w w1 m w2 Hops Hf Hrun Hb.
    unfold with_fallback, chain_execute. rewrite Hc, Ho.
    change (lambda_call func :: map lambda_call (take 3 fallback_funcs))
      with (map lambda_call (func :: take 3 fallback_funcs)).
    rewrite Hops, (fallback_loop_failed default_config ops1 w w1 Hrun)
      by (rewrite length_app; simpl; lia).
    simpl. rewrite (Hatt f w1 Hf), Hb. reflexivity.
  - intros ops1 f w w1 e w2 Hops Hf Hrun Hb.
    unfold with_fallback, chain_execute. rewrite Hc, Ho.
    change (lambda_call func :: map lambda_call (take 3 fallback_funcs))
      with (map lambda_call (func :: take 3 fallback_funcs)).
    rewrite Hops, (fallback_loop_failed default_config ops1 w w1 Hrun)
      by (rewrite length_app; simpl; lia).
    simpl. rewrite (Hatt f w1 Hf), Hb.
    destruct e; try reflexivity;
      rewrite length_app; simpl;
      replace (0 + Z.of_nat (length ops1) =? Z.of_nat (length ops1 + 1) - 1)%Z
        with true by (symmetry; apply Z.eqb_eq; lia); reflexivity.
Qed.

(** *** [with_retry] *)

(** X24. [with_retry] is transparent for a call that does not fail
    transiently: with [max_retries >= 0], when the first run of the body
    returns or raises anything but a TransientError, the decorated function
    does exactly what the body does, once, with no delay. This holds for a
    plain function and for an [async def] alike: here the coroutine is
    awaited. *)
Theorem with_retry_transparent (max_retries : Z) (base_delay : Q) (func : Function)
    (w : W) :
  (0 <= max_retries)%Z ->
  (forall m, fst (body func w) <> Raises (TransientError m)) ->
  with_retry max_retries base_delay func w = body func w.
Proof.
  intros Hmax Hnt. unfold with_retry, execute_with_retry. simpl Recovery.max_retries.
  destruct (Z.to_nat (max_retries + 1)) as [|n] eqn:En; [lia|].
  assert (Hex : _execute (retry_operation func) w = body func w).
  { unfold _execute, retry_operation. simpl. destruct (is_async func); reflexivity. }
  destruct (body func w) as [[v|e] w1] eqn:Eb.
  - apply retry_loop_returns. exact Hex.
  - apply retry_loop_raises; [exact Hex|].
    destruct e; try reflexivity. exfalso. apply (Hnt msg). reflexivity.
Qed.

End Engine.

Arguments VNone {W V}.
Arguments VObj {W V} _.
Arguments VCoroutine {W V} _ _.
Arguments mkCallable {W V} _ _.
Arguments is_coroutine_function {W V} _.
Arguments call {W V} _ _.
Arguments mkFallbackResult {W V} _ _ _ _.
Arguments mkChain {W V} _ _.
Arguments chain_config {W V} _.
Arguments fallbacks {W V} _.
Arguments operations {W V} _ _.
Arguments chain_of {W V} _ _.
Arguments mkFunction {W V} _ _ _.
Arguments fn_name {W V} _.
Arguments is_async {W V} _.
Arguments body {W V} _ _.

End Recovery.

(** ** The demo of error_recovery.py and small scenarios *)

Module RecoveryDemo.
Import Recovery.

(** The world of the demo: the wall clock, the [attempt_count] variable of
    [main], and the names of the demo functions called so far. *)
Record World := mkWorld { now : Q; attempt_count : Z; calls : list string }.

Definition time (w : World) : Q * World := (now w, w).
Definition sleep (d : Q) (w : World) : World :=
  mkWorld (now w + d)%Q (attempt_count w) (calls w).

(** A generator that always draws 1/2. *)
Definition random (w : World) : Q * World := (1 # 2, w).

(** [asyncio.wait_for] for the coroutines of these scenarios, which act on
    the world when they start and then only wait: a coroutine that would
    take longer than the timeout is cancelled at the deadline; what it did
    until then is kept, the clock stands at the deadline and TimeoutError is
    raised. *)
Definition wait_for (c : World -> Outcome (Value World string) * World) (timeout : Q)
    (w : World) : Outcome (Value World string) * World :=
  let '(o, w') := c w in
  if Qle_bool (now w' - now w) timeout then (o, w')
  else (Raises TimeoutError, mkWorld (now w + timeout) (attempt_count w') (calls w')).

Definition called (f : string) (w : World) : World :=
  mkWorld (now w) (attempt_count w) (calls w ++ [f]).

(** [flaky_operation] *)
Definition flaky_operation : Callable World string :=
  mkCallable false (fun w =>
    let w1 := mkWorld (now w) (attempt_count w + 1) (calls w ++ ["flaky_operation"]) in
    if (attempt_count w1 <? 3)%Z then
      (Raises (TransientError ("Simulated failure #" +:+ pretty (attempt_count w1))), w1)
    else (Returns (VObj ("Success on attempt " +:+ pretty (attempt_count w1))), w1)).

(** [fallback_operation] *)
Definition fallback_operation : Callable World string :=
  mkCallable false (fun w => (Returns (VObj "Fallback result"), called "fallback_operation" w)).

(** [always_fail] *)
Definition always_fail : Callable World string :=
  mkCallable false (fun w => (Raises (TransientError "Always fails"), called "always_fail" w)).


(** A plain (not [async]) function that takes 100 seconds. *)
Definition slow_plain : Callable World string :=
  mkCallable false (fun w => (Returns (VObj "late"), sleep 100 (called "slow_plain" w))).

(** The same as a coroutine function. *)
Definition slow_coroutine : Callable World string :=
  mkCallable true (fun w => (Returns (VObj "late"), sleep 100 (called "slow_coroutine" w))).

(** The configuration of [main]. *)
Definition demo_config : ResilienceConfig :=
  mkConfig 3 (1 # 2) 30 2 (1 # 10) 4 60 3 5 3.

Definition w0 : World := mkWorld 0 0 [].

Definition retry := execute_with_retry World string sleep random.
Definition chain_run := chain_execute World string wait_for.
Definition breaker_run := breaker_execute World string time.
Definition executor_run := resilient_execute World string time sleep random wait_for.

(** Test 3 of [main]: six calls of [always_fail] through breaker "test3". *)
Definition executor0 : ResilientExecutor := new_executor (Some demo_config).
Definition test3_breaker : CircuitBreaker := fst (get_circuit_breaker "test3" executor0).
Definition after_test3 :=
  run_calls World string time (replicate 6 always_fail) test3_breaker w0.
Definition executor3 : ResilientExecutor :=
  put_breaker "test3" (snd (fst after_test3)) (snd (get_circuit_breaker "test3" executor0)).
Definition w3 : World := snd after_test3.

(** A fallback that fails. *)
Definition failing_fallback : Callable World string :=
  mkCallable false (fun w => (Raises (PermanentError "no luck"), called "failing_fallback" w)).


(** Configurations outside the usual range. *)
Definition zero_depth_config : ResilienceConfig :=
  mkConfig 3 1 30 2 (1 # 10) 0 60 5 30 3.
Definition negative_delay_config : ResilienceConfig :=
  mkConfig 3 (-1) 30 2 (1 # 10) 4 60 5 30 3.
Definition no_attempt_config : ResilienceConfig :=
  mkConfig (-1) 1 30 2 (1 # 10) 4 60 5 30 3.


(** An operation that succeeds. *)
Definition succeed : Callable World string :=
  mkCallable false (fun w => (Returns (VObj "ok"), called "succeed" w)).

(** A breaker of the demo configuration ([failure_threshold = 3],
    [recovery_timeout = 5], [half_open_max_calls = 3]) that is opened by
    three failures, probed 5 seconds later with two successes and a failure,
    and probed again 5 seconds after that with one success. *)
Definition probe_breaker : CircuitBreaker := new_breaker "svc" demo_config.
Definition opened := run_calls World string time (replicate 3 always_fail) probe_breaker w0.
Definition first_probe :=
  breaker_run (snd (fst opened)) succeed (sleep 5 (snd opened)).
Definition first_episode :=
  run_calls World string time [succeed; always_fail] (snd (fst first_probe)) (snd first_probe).
Definition second_episode :=
  breaker_run (snd (fst first_episode)) succeed (sleep 5 (snd first_episode)).

(** A breaker of the demo configuration that is probing. *)
Definition probing_breaker : CircuitBreaker :=
  mkBreaker "svc" demo_config HALF_OPEN 3 0 (Some 0%Q) 0.

(** [flaky_operation] and [fallback_operation] as decorated functions, the
    first one also as an [async def]. *)
Definition flaky_function : Function World string :=
  mkFunction "flaky_operation" false (call flaky_operation).
Definition flaky_async : Function World string :=
  mkFunction "flaky_operation" true (call flaky_operation).
Definition fallback_function : Function World string :=
  mkFunction "fallback_operation" false (call fallback_operation).

(** Scenario C of the specification: with [failure_threshold = 3], the
    states after each of six failing calls. *)
Example breaker_scenario_c :
  map (fun k => state (breaker_after World string time (replicate k always_fail)
                         test3_breaker w0))
      [1; 2; 3; 4; 5; 6]%nat
  = [CLOSED; CLOSED; OPEN; OPEN; OPEN; OPEN].
Proof. vm_compute. reflexivity. Qed.

(** C2 (code at the failing input). After Test 3 of the demo the breaker
    "test3" is OPEN. A call of [ResilientExecutor.execute] on it with
    [fallbacks=[fallback_operation]] returns [None]; [fallback_operation] has
    not been called. On a fresh breaker, [execute(flaky_operation)] returns
    the coroutine object of [circuit.execute] and [flaky_operation] has not
    been called: [attempt_count] is still 0 and the breaker has recorded
    nothing. *)
Theorem open_breaker_skips_fallbacks :
  state (snd (fst after_test3)) = OPEN /\
  (let '(o, _, w) :=
     executor_run executor3 flaky_operation "test3" (Some [fallback_operation]) w3 in
   o = Returns VNone /\ calls w3 = ["always_fail"; "always_fail"; "always_fail"] /\
   calls w = calls w3)
  /\ (let '(o, ex, w) := executor_run executor0 flaky_operation "test1" None w0 in
      o = Returns (VCoroutine "test1" (call flaky_operation)) /\ w = w0 /\
      attempt_count w = 0%Z /\
      circuit_breakers ex !! "test1" = Some (new_breaker "test1" demo_config)).
Proof. vm_compute. repeat split; reflexivity. Qed.

(** With no attempt allowed ([max_retries = -1]) the retry loop raises at
    once and the fallback branch runs: [fallbacks[0]] is the primary of the
    chain and its first fallback, so it is called twice. *)
Example first_fallback_called_twice :
  let '(o, _, w) :=
    executor_run (new_executor (Some no_attempt_config)) flaky_operation "t"
      (Some [failing_fallback]) w0 in
  o = Raises (OtherException "All retries exhausted") /\
  calls w = ["failing_fallback"; "failing_fallback"].
Proof. vm_compute. split; reflexivity. Qed.

(** C4 (code at the failing input). The bookkeeping of HALF_OPEN: after
    the first probe the breaker is HALF_OPEN, and reading [is_open] again
    answers False without any change, [half_open_calls] still 0, so every
    call that starts before that probe has finished is let in, however many;
    and after two successful probes and a failed one, the breaker, OPEN
    again with [success_count] still 2, is CLOSED after a single successful
    probe of the next HALF_OPEN episode, not after three in a row. *)
Theorem half_open_bookkeeping :
  half_open_max_calls demo_config = 3%Z /\
  state (snd (fst opened)) = OPEN /\
  (let cb := snd (fst first_probe) in
   state cb = HALF_OPEN /\ success_count cb = 1%Z /\ half_open_calls cb = 0%Z /\
   forall w, is_open World time cb w = (false, cb, w))
  /\ (let cb := snd (fst first_episode) in
      state cb = OPEN /\ success_count cb = 2%Z)
  /\ (let '(o, cb, _) := second_episode in
      o = Returns (VObj "ok") /\ state cb = CLOSED /\ success_count cb = 0%Z).
Proof.
  split; [reflexivity|]. split; [vm_compute; reflexivity|].
  split.
  - split; [vm_compute; reflexivity|]. split; [vm_compute; reflexivity|].
    split; [vm_compute; reflexivity|].
    intros w. apply is_open_half_open. vm_compute. reflexivity.
  - vm_compute. repeat split; reflexivity.
Qed.


(** C7 (counterexample). With [max_fallback_depth = 0] and two fallbacks the
    chain makes two attempts, more than the depth; and a plain callable that
    takes 100 seconds, with [fallback_timeout = 60], is not cut off: its
    value is the result of the chain and 100 seconds have passed. *)
Lemma depth_zero_and_plain_callable :
  (max_fallback_depth zero_depth_config = 0%Z /\
   calls (snd (chain_run (mkChain zero_depth_config [always_fail; always_fail])
                 always_fail w0)) = ["always_fail"; "always_fail"])
  /\ (fallback_timeout default_config = 60%Q /\
      chain_run (mkChain default_config []) slow_plain w0 =
        (Returns (mkFallbackResult true (VObj "late") 0 None),
         mkWorld 100 0 ["slow_plain"])).
Proof. vm_compute. repeat split; reflexivity. Qed.

(** The demo's [wait_for] keeps the contract, with the demo clock. *)
Lemma demo_wait_for_contract : wait_for_contract World string wait_for now.
Proof.
  intros c timeout w Ht. unfold wait_for. destruct (c w) as [o w'].
  simpl. destruct (Qle_bool (now w' - now w) timeout) eqn:E.
  - split; [reflexivity|]. intros H. exfalso. apply H, Qle_bool_iff, E.
  - split.
    + intros H. apply Qle_bool_iff in H. congruence.
    + intros _. split; [reflexivity | apply Qeq_refl].
Qed.

(** The same operation as a coroutine function is cut off at the deadline
    and the chain goes on to the fallback. *)
Example coroutine_is_cut_off :
  chain_run (mkChain default_config [fallback_operation]) slow_coroutine w0 =
    (Returns (mkFallbackResult true (VObj "Fallback result") 1 None),
     mkWorld 60 0 ["slow_coroutine"; "fallback_operation"]).
Proof. vm_compute. reflexivity. Qed.

(** C8 (counterexample). With [exponential_base = 2] and [base_delay = -1]
    the delay goes from -1 down to -2, and the jitter drawn for attempt 0,
    -1/20, is not in [[0, delay * jitter_factor]]. And with the default
    configuration attempt 1023 still has the delay 30, but for attempt 1024
    [calculate_delay] raises OverflowError. *)
Lemma negative_base_delay_decreases :
  ((1 <= exponential_base negative_delay_config)%Q /\
   capped_delay negative_delay_config 0 = Returns (-1)%Q /\
   capped_delay negative_delay_config 1 = Returns (-2)%Q /\
   ~ (-1 <= -2)%Q /\
   ~ (0 <= fst (uniform World random 0 (-1 * jitter_factor negative_delay_config) w0))%Q)
  /\ (exists d, capped_delay default_config 1023 = Returns d /\ (d == 30)%Q)
  /\ calculate_delay World random default_config 1024 w0 = (Raises OverflowError, w0).
Proof.
  split; [|split].
  - split; [discriminate|]. split; [reflexivity|]. split; [reflexivity|].
    split; intros H; vm_compute in H; apply H; reflexivity.
  - eexists. split; [vm_compute; reflexivity | vm_compute; reflexivity].
  - vm_compute. reflexivity.
Qed.

(** The default configuration, attempt 2: the delay is 4 seconds. *)
Lemma calculate_delay_backoff_witness :
  let delay := Qmin (base_delay default_config * exponential_base default_config ^ 2)%Q
                    (max_delay default_config) in
  let jitter := fst (uniform World random 0 (delay * jitter_factor default_config)%Q w0) in
  ((exponential_base default_config ^ 2 < float_limit)%Q ->
     capped_delay default_config 2 = Returns delay /\
     calculate_delay World random default_config 2 w0
       = (Returns (delay + jitter)%Q, snd (random w0)) /\
     (0 <= jitter <= delay * jitter_factor default_config)%Q /\
     (delay <= max_delay default_config)%Q /\
     (forall m, (2 <= m)%Z -> (exponential_base default_config ^ m < float_limit)%Q ->
        exists delay',
          capped_delay default_config m = Returns delay' /\
          (delay <= delay' <= max_delay default_config)%Q /\
          ((max_delay default_config
            <= base_delay default_config * exponential_base default_config ^ 2)%Q ->
           (delay' == max_delay default_config)%Q)))
  /\ ((float_limit <= exponential_base default_config ^ 2)%Q ->
       calculate_delay World random default_config 2 w0 = (Raises OverflowError, w0) /\
       forall m, (2 <= m)%Z -> capped_delay default_config m = Raises OverflowError).
Proof.
  apply (calculate_delay_backoff World random default_config 2 w0).
  - discriminate.
  - discriminate.
  - discriminate.
  - discriminate.
  - split; discriminate.
Defined.



(** [always_fail] with [fallback_operation] as only fallback: the result
    comes from level 1. And [slow_coroutine], which takes 100 seconds, under
    the demo's [wait_for] with [fallback_timeout = 60]: the attempt is over
    after 60 seconds with TimeoutError. *)
Lemma chain_execute_contract_witness :
  (exists w',
     chain_execute World string wait_for (mkChain default_config [fallback_operation])
       always_fail w0
       = (Returns (mkFallbackResult true (VObj "Fallback result") 1 None), w') /\
     calls w' = ["always_fail"; "fallback_operation"])
  /\ ((now (snd (attempt World string wait_for default_config slow_coroutine w0)) - now w0
        <= fallback_timeout default_config)%Q /\
      ((now (snd (call slow_coroutine w0)) - now w0 <= fallback_timeout default_config)%Q ->
         attempt World string wait_for default_config slow_coroutine w0
           = call slow_coroutine w0) /\
      (~ (now (snd (call slow_coroutine w0)) - now w0 <= fallback_timeout default_config)%Q ->
         fst (attempt World string wait_for default_config slow_coroutine w0)
           = Raises TimeoutError)).
Proof.
  split.
  - eexists. split.
    + eapply (proj1 (proj2
                (chain_execute_contract World string wait_for
                   (mkChain default_config [fallback_operation]) always_fail))
                [always_fail] fallback_operation []).
      * reflexivity.
      * eapply failed_run_cons; [reflexivity | reflexivity | apply failed_run_nil].
      * reflexivity.
    + reflexivity.
  - apply (proj1 (proj2 (proj2 (proj2 (proj2
             (chain_execute_contract World string wait_for
                (mkChain default_config [fallback_operation]) always_fail)))))
             now slow_coroutine w0).
    + exact demo_wait_for_contract.
    + reflexivity.
    + reflexivity.
Defined.


(** Three failures open the breaker of Test 3. *)
Example three_failures_open :
  state (breaker_after World string time (replicate 3 always_fail) test3_breaker w0) = OPEN.
Proof.
  apply (proj1 (breaker_transitions World string time)
           (replicate 3 always_fail) test3_breaker w0).
  - reflexivity.
  - reflexivity.
  - intros operation w Hin. apply elem_of_replicate in Hin as [-> _]. reflexivity.
  - discriminate.
  - reflexivity.
Qed.

(** *** Instances of the further properties *)

(** The breaker of Test 3 after its six failing calls. *)
Lemma breaker_limits_witness :
  (state (breaker_after World string time (replicate 6 always_fail)
            (new_breaker "test3" demo_config) w0) = CLOSED ->
   (failure_count (breaker_after World string time (replicate 6 always_fail)
                     (new_breaker "test3" demo_config) w0)
    < failure_threshold demo_config)%Z) /\
  (success_count (breaker_after World string time (replicate 6 always_fail)
                    (new_breaker "test3" demo_config) w0)
   < half_open_max_calls demo_config)%Z.
Proof.
  apply (breaker_limits World string time (replicate 6 always_fail) "test3" demo_config w0).
  - discriminate.
  - discriminate.
Defined.

(** Three successful probes close the probing breaker. *)
Lemma half_open_closes_at_limit_witness :
  ((success_count probing_breaker + Z.of_nat (length [succeed; succeed; succeed])
    < half_open_max_calls (config probing_breaker))%Z ->
     state (breaker_after World string time [succeed; succeed; succeed]
              probing_breaker w0) = HALF_OPEN /\
     success_count (breaker_after World string time [succeed; succeed; succeed]
                      probing_breaker w0)
     = (success_count probing_breaker + Z.of_nat (length [succeed; succeed; succeed]))%Z) /\
  ((1 <= length [succeed; succeed; succeed])%nat ->
   (half_open_max_calls (config probing_breaker)
    <= success_count probing_breaker + Z.of_nat (length [succeed; succeed; succeed]))%Z ->
     state (breaker_after World string time [succeed; succeed; succeed]
              probing_breaker w0) = CLOSED /\
     failure_count (breaker_after World string time [succeed; succeed; succeed]
                      probing_breaker w0) = 0%Z /\
     success_count (breaker_after World string time [succeed; succeed; succeed]
                      probing_breaker w0) = 0%Z).
Proof.
  apply (half_open_closes_at_limit World string time [succeed; succeed; succeed]
           probing_breaker w0).
  - reflexivity.
  - intros operation w Hin.
    repeat (apply elem_of_cons in Hin as [->|Hin]; [reflexivity|]). inversion Hin.
Defined.

(** Two failures, a success and two more failures leave a breaker with
    [failure_threshold = 3] CLOSED. *)
Lemma success_restarts_failure_count_witness :
  state (breaker_after World string time
           ([always_fail; always_fail] ++ succeed :: [always_fail; always_fail])
           probe_breaker w0) = CLOSED /\
  failure_count (breaker_after World string time
                   ([always_fail; always_fail] ++ succeed :: [always_fail; always_fail])
                   probe_breaker w0)
  = Z.of_nat (length [always_fail; always_fail]).
Proof.
  apply (success_restarts_failure_count World string time
           [always_fail; always_fail] [always_fail; always_fail] succeed probe_breaker w0).
  - reflexivity.
  - intros operation w Hin. simpl in Hin.
    repeat (apply elem_of_cons in Hin as [->|Hin]; [reflexivity|]). inversion Hin.
  - intros w. reflexivity.
  - reflexivity.
  - reflexivity.
Defined.

(** A failed probe of the probing breaker. *)
Lemma failed_probe_reopens_witness :
  fst (fst (breaker_run probing_breaker always_fail w0))
    = Raises (TransientError "Always fails") /\
  state (snd (fst (breaker_run probing_breaker always_fail w0))) = OPEN /\
  last_failure_time (snd (fst (breaker_run probing_breaker always_fail w0)))
    = Some (fst (time (called "always_fail" w0))) /\
  snd (breaker_run probing_breaker always_fail w0) = snd (time (called "always_fail" w0)) /\
  (~ (recovery_timeout (config probing_breaker)
      <= fst (time (snd (breaker_run probing_breaker always_fail w0)))
         - fst (time (called "always_fail" w0)))%Q ->
   breaker_run (snd (fst (breaker_run probing_breaker always_fail w0))) succeed
               (snd (breaker_run probing_breaker always_fail w0)) =
     (Raises (TransientError ("Circuit " +:+ name probing_breaker +:+ " is open")),
      snd (fst (breaker_run probing_breaker always_fail w0)),
      snd (time (snd (breaker_run probing_breaker always_fail w0))))).
Proof.
  apply (failed_probe_reopens World string time probing_breaker always_fail succeed
           w0 (called "always_fail" w0) (TransientError "Always fails")).
  - reflexivity.
  - reflexivity.
Defined.

(** The retry of [always_fail] under the demo configuration sleeps no more
    than 3 * 33 seconds; the clock of the demo world is the measure. *)
Lemma retry_sleep_budget_witness :
  (now (snd (retry demo_config always_fail None w0))
   <= now w0 + inject_Z (Z.max 0 (max_retries demo_config))
               * (max_delay demo_config * (1 + jitter_factor demo_config)))%Q.
Proof.
  apply (retry_sleep_budget World string sleep random demo_config always_fail None now).
  - discriminate.
  - discriminate.
  - discriminate.
  - discriminate.
  - intros w. split; discriminate.
  - intros w. apply Qle_refl.
  - intros d w. apply Qle_refl.
  - intros w. apply Qle_refl.
  - intros f a e w Hf. discriminate.
Defined.

(** The call of C2 on the OPEN breaker "test3". *)
Lemma resilient_execute_runs_nothing_witness :
  executor_run executor3 flaky_operation "test3" (Some [fallback_operation]) w3 =
    (if fst (fst (is_open World time (fst (get_circuit_breaker "test3" executor3)) w3))
     then Returns VNone
     else Returns (VCoroutine "test3" (call flaky_operation)),
     put_breaker "test3"
       (snd (fst (is_open World time (fst (get_circuit_breaker "test3" executor3)) w3)))
       (snd (get_circuit_breaker "test3" executor3)),
     snd (is_open World time (fst (get_circuit_breaker "test3" executor3)) w3)) /\
  failure_count
    (snd (fst (is_open World time (fst (get_circuit_breaker "test3" executor3)) w3)))
    = failure_count (fst (get_circuit_breaker "test3" executor3)) /\
  success_count
    (snd (fst (is_open World time (fst (get_circuit_breaker "test3" executor3)) w3)))
    = success_count (fst (get_circuit_breaker "test3" executor3)).
Proof.
  apply (resilient_execute_runs_nothing World string time sleep random wait_for executor3
           flaky_operation "test3" (Some [fallback_operation]) w3).
  discriminate.
Defined.

(** [with_fallback(fallback_operation)] around an [async def flaky_operation]. *)
Lemma with_fallback_async_not_awaited_witness :
  with_fallback World string wait_for [fallback_function] flaky_async w0 =
    (Returns (VCoroutine "flaky_operation" (call flaky_operation)), w0).
Proof.
  apply (with_fallback_async_not_awaited World string wait_for [fallback_function]
           flaky_async w0).
  reflexivity.
Defined.

(** [with_retry] around [fallback_operation], which returns. *)
Lemma with_retry_transparent_witness :
  with_retry World string sleep random 3 1 fallback_function w0 =
    body fallback_function w0.
Proof.
  apply (with_retry_transparent World string sleep random 3 1 fallback_function w0).
  - discriminate.
  - intros m. discriminate.
Defined.

(** The demo functions under the decorators: [with_retry(3, 0.5)] around
    [flaky_operation] returns on the third run of the body;
    [with_fallback(fallback_operation)] around the plain function falls back
    after one failure. *)
Example decorators_on_flaky_operation :
  (let '(o, w) := with_retry World string sleep random 3 (1 # 2) flaky_function w0 in
   o = Returns (VObj "Success on attempt 3") /\ attempt_count w = 3%Z) /\
  (let '(o, w) := with_fallback World string wait_for [fallback_function] flaky_function w0 in
   o = Returns (VObj "Fallback result") /\
   calls w = ["flaky_operation"; "fallback_operation"]).
Proof. vm_compute. repeat split; reflexivity. Qed.

End RecoveryDemo.
